(** * The NL-to-SQL pipeline of [app/query_engine.py]

    A shallow embedding of the text-processing core of the query engine
    (sanitizer, safety gate, limit enforcer, result summarizer and the
    orchestrator [process_question]) together with the properties its
    specification states about it.

    Conventions of the model.

    - A Python [str] is a [list ascii]; a character is its code point in
      the range 0..255 (ASCII and the Latin-1 block).  Character classes
      ([str.strip], [\s], [\d], [\w], [\b]) follow the Unicode database on
      that range, as CPython's [str] methods and the [re] module do for
      [str] patterns.
    - [str.upper] may leave Latin-1 (sharp s becomes "SS", the micro sign
      and y-diaeresis map above 255), so its result is a list of code
      points.
    - Texts with a character above 255 are outside the model.  Among
      those characters [re.IGNORECASE] matches four with an ASCII letter:
      U+017F with s, U+212A with k, U+0130 and U+0131 with i.
    - The language model and the database are external: they are a
      [Backend] over an abstract world state, and the effectful functions
      thread that state together with a trace of the calls made (the
      schema read, the model calls, the statement executed).
    - Logging is not modelled.
    - Of [app/main.py] the two endpoints are modelled as functions of the
      request, and of [app/database.py] the two get-or-create helpers,
      over the two dimension tables as lists of rows. *)

From Stdlib Require Import Ascii String List ZArith NArith Lia Bool Arith.
From Stdlib Require Import DecimalString DecimalPos DecimalNat.
Import ListNotations.

(** ** Python strings *)

Module Py.

(** String literals denote [list ascii]. *)
Inductive chars := CNil | CCons (c : ascii) (s : chars).

Fixpoint chars_of_bytes (l : list Byte.byte) : chars :=
  match l with
  | [] => CNil
  | b :: l' => CCons (ascii_of_byte b) (chars_of_bytes l')
  end.

Fixpoint bytes_of_chars (s : chars) : list Byte.byte :=
  match s with
  | CNil => []
  | CCons c s' => byte_of_ascii c :: bytes_of_chars s'
  end.

Declare Scope str_scope.
Delimit Scope str_scope with str.
#[warnings="-via-type-mismatch"]
String Notation list chars_of_bytes bytes_of_chars
  (via chars mapping [[nil] => CNil, [cons] => CCons]) : str_scope.

Definition str := list ascii.
Bind Scope str_scope with str.

(** Code point of a character. *)
Definition ord (c : ascii) : N := N_of_ascii c.

Definition between (lo hi : N) (c : ascii) : bool :=
  ((lo <=? ord c) && (ord c <=? hi))%N.

(** [Py_UNICODE_ISSPACE]: the test behind [str.strip] and [\s]. *)
Definition isspace (c : ascii) : bool :=
  between 9 13 c || between 28 32 c || (ord c =? 133)%N || (ord c =? 160)%N.

(** Decimal digits ([\d]): only 0-9 below 256. *)
Definition isdecimal (c : ascii) : bool := between 48 57 c.

(** The explicit set [a-zA-Z0-9]. *)
Definition is_ascii_alnum (c : ascii) : bool :=
  between 97 122 c || between 65 90 c || between 48 57 c.

(** [str.isalnum] on one character, Latin-1 part of the Unicode tables:
    letters, decimal digits, and the characters with a digit or numeric
    value (superscripts, vulgar fractions). *)
Definition isalnum (c : ascii) : bool :=
  is_ascii_alnum c
  || (ord c =? 170)%N || (ord c =? 178)%N || (ord c =? 179)%N
  || (ord c =? 181)%N || (ord c =? 185)%N || (ord c =? 186)%N
  || between 188 190 c || between 192 214 c || between 216 246 c
  || between 248 255 c.

(** Word characters ([\w]). *)
Definition isword (c : ascii) : bool := isalnum c || (ord c =? 95)%N.

(** Simple lower-case mapping, used by [re.IGNORECASE]. *)
Definition lower (c : ascii) : ascii :=
  if between 65 90 c || between 192 214 c || between 216 222 c
  then ascii_of_N (ord c + 32) else c.

(** Full upper-case mapping of one character, as code points. *)
Definition upper_char (c : ascii) : list N :=
  if between 97 122 c || between 224 246 c || between 248 254 c
  then [(ord c - 32)%N]
  else if (ord c =? 223)%N then [83%N; 83%N]
  else if (ord c =? 181)%N then [924%N]
  else if (ord c =? 255)%N then [376%N]
  else [ord c].

(** [s.upper()] *)
Definition upper (s : str) : list N := flat_map upper_char s.

(** Code points of a string, for comparisons with [upper]. *)
Definition ords (s : str) : list N := map ord s.

Fixpoint dropwhile {A : Type} (p : A -> bool) (l : list A) : list A :=
  match l with
  | [] => []
  | x :: l' => if p x then dropwhile p l' else l
  end.

(** [s.lstrip()], [s.rstrip()], [s.strip()] *)
Definition lstrip (s : str) : str := dropwhile isspace s.
Definition rstrip (s : str) : str := rev (dropwhile isspace (rev s)).
Definition strip (s : str) : str := rstrip (lstrip s).

(** [s.rstrip(chars)]: drops every trailing character that occurs in
    [chars]. *)
Definition rstrip_chars (chars s : str) : str :=
  rev (dropwhile (fun c => existsb (Ascii.eqb c) chars) (rev s)).

(** [needle in hay] *)
Fixpoint startswith {A : Type} (eqb : A -> A -> bool) (needle hay : list A) : bool :=
  match needle, hay with
  | [], _ => true
  | _ :: _, [] => false
  | x :: n', y :: h' => eqb x y && startswith eqb n' h'
  end.

Fixpoint contains {A : Type} (eqb : A -> A -> bool) (needle hay : list A) : bool :=
  startswith eqb needle hay
  || match hay with
     | [] => false
     | _ :: h' => contains eqb needle h'
     end.

(** [s.split(sep)] for a one-character separator. *)
Fixpoint split (sep : ascii) (s : str) : list str :=
  match s with
  | [] => [[]]
  | c :: s' =>
      if Ascii.eqb c sep then [] :: split sep s'
      else match split sep s' with
           | p :: ps => (c :: p) :: ps
           | [] => [[c]]
           end
  end.

(** [sep.join(parts)] *)
Fixpoint join (sep : str) (parts : list str) : str :=
  match parts with
  | [] => []
  | [p] => p
  | p :: ps => p ++ sep ++ join sep ps
  end.

(** [str(n)] for integers. *)
Definition str_of_Z (z : Z) : str :=
  list_ascii_of_string (NilZero.string_of_int (Z.to_int z)).
Definition str_of_nat (n : nat) : str :=
  list_ascii_of_string (NilZero.string_of_uint (Nat.to_uint n)).

(** Truthiness of a string: [if s]. *)
Definition truthy (s : str) : bool :=
  match s with [] => false | _ :: _ => true end.

(** The newline character. *)
Definition LF : ascii := "010"%char.

End Py.

Import Py.
Open Scope str_scope.


(** ** A backtracking matcher for the [re] patterns of the engine

    The patterns of [query_engine.py] are sequences of literals, greedy
    repetitions of a character set, and the zero-width assertions [^], [$]
    and [\b].  The matcher follows the [re] module: repetitions are greedy
    and give characters back on failure, a search returns the leftmost
    match, and no pattern is compiled with [re.MULTILINE]. *)

Module Re.

Inductive charset :=
| Whitespace   (* \s *)
| Digit        (* \d *)
| AsciiAlnum.  (* [a-zA-Z0-9] *)

Definition in_set (cs : charset) (c : ascii) : bool :=
  match cs with
  | Whitespace => isspace c
  | Digit => isdecimal c
  | AsciiAlnum => is_ascii_alnum c
  end.

Inductive item :=
| Lit (w : str)        (* the characters of w, in sequence *)
| Many (cs : charset)  (* cs*  *)
| Many1 (cs : charset) (* cs+  *)
| Bos                  (* ^    *)
| Eos                  (* $    *)
| WordBoundary.        (* \b   *)

Definition regex := list item.

Inductive flags := NoFlags | IGNORECASE.

(** A pattern character [c] against a subject character [x]. *)
Definition char_eq (f : flags) (c x : ascii) : bool :=
  match f with
  | NoFlags => Ascii.eqb x c
  | IGNORECASE => Ascii.eqb (lower x) (lower c)
  end.

Definition word_at (c : option ascii) : bool :=
  match c with
  | Some x => isword x
  | None => false
  end.

(** [\b]: exactly one of the two neighbours is a word character; the
    outside of the string counts as a non-word character. *)
Definition at_boundary (prev : option ascii) (s : str) : bool :=
  xorb (word_at prev) (word_at (hd_error s)).

(** [$]: at the end, or just before a newline that ends the string. *)
Definition at_end (s : str) : bool :=
  match s with
  | [] => true
  | [c] => Ascii.eqb c LF
  | _ => false
  end.

(** A matcher state is the character before the current position ([None]
    at the start of the string) and the text still to read; a successful
    match returns the text after it. *)
Definition cont := option ascii -> str -> option str.

Fixpoint lit (f : flags) (w : str) (k : cont) (prev : option ascii) (s : str) : option str :=
  match w with
  | [] => k prev s
  | c :: w' =>
      match s with
      | x :: s' => if char_eq f c x then lit f w' k (Some x) s' else None
      | [] => None
      end
  end.

Fixpoint many (p : ascii -> bool) (k : cont) (prev : option ascii) (s : str) : option str :=
  match s with
  | x :: s' =>
      if p x then
        match many p k (Some x) s' with
        | Some r => Some r
        | None => k prev s
        end
      else k prev s
  | [] => k prev s
  end.

Definition many1 (p : ascii -> bool) (k : cont) (prev : option ascii) (s : str) : option str :=
  match s with
  | x :: s' => if p x then many p k (Some x) s' else None
  | [] => None
  end.

Fixpoint match_here (f : flags) (re : regex) : cont :=
  match re with
  | [] => fun _ s => Some s
  | Lit w :: re' => lit f w (match_here f re')
  | Many cs :: re' => many (in_set cs) (match_here f re')
  | Many1 cs :: re' => many1 (in_set cs) (match_here f re')
  | Bos :: re' =>
      fun prev s =>
        match prev with
        | None => match_here f re' prev s
        | Some _ => None
        end
  | Eos :: re' =>
      fun prev s => if at_end s then match_here f re' prev s else None
  | WordBoundary :: re' =>
      fun prev s => if at_boundary prev s then match_here f re' prev s else None
  end.

(** [re.match(pattern, s, flags)]: a match starting at position 0. *)
Definition match_ (re : regex) (s : str) (f : flags) : option str :=
  match_here f re None s.

Fixpoint search_from (f : flags) (re : regex) (prev : option ascii) (s : str) : option str :=
  match match_here f re prev s with
  | Some rest => Some rest
  | None =>
      match s with
      | [] => None
      | x :: s' => search_from f re (Some x) s'
      end
  end.

(** [re.search(pattern, s, flags)]: the leftmost match. *)
Definition search (re : regex) (s : str) (f : flags) : option str :=
  search_from f re None s.

(** A match object is truthy, [None] is falsy. *)
Definition found (m : option str) : bool :=
  match m with
  | Some _ => true
  | None => false
  end.

(** [re.sub]: scan left to right, replace each match by [repl] and resume
    after it; [skip] counts the characters of the current match still to
    drop.  After an empty match one character is copied. *)
Fixpoint sub_from (f : flags) (re : regex) (repl : str)
  (prev : option ascii) (skip : nat) (s : str) : str :=
  match skip with
  | S n =>
      match s with
      | x :: s' => sub_from f re repl (Some x) n s'
      | [] => []
      end
  | O =>
      match match_here f re prev s with
      | Some rest =>
          match s with
          | x :: s' =>
              match length s - length rest with
              | S n => repl ++ sub_from f re repl (Some x) n s'
              | O => repl ++ x :: sub_from f re repl (Some x) 0 s'
              end
          | [] => repl
          end
      | None =>
          match s with
          | x :: s' => x :: sub_from f re repl (Some x) 0 s'
          | [] => []
          end
      end
  end.

(** [re.sub(pattern, repl, s, flags=f)] *)
Definition sub (re : regex) (repl : str) (s : str) (f : flags) : str :=
  sub_from f re repl None 0 s.

(** *** Declarative reading of a pattern

    [denotes f re prev m rest]: the text [m], preceded by [prev] and
    followed by [rest], is a match of [re]. *)

(** The character before the position reached after reading [m]. *)
Fixpoint last_of (prev : option ascii) (m : str) : option ascii :=
  match m with
  | [] => prev
  | x :: m' => last_of (Some x) m'
  end.

Fixpoint denotes (f : flags) (re : regex) (prev : option ascii) (m rest : str) : Prop :=
  match re with
  | [] => m = []
  | Lit w :: re' =>
      exists u m', m = u ++ m' /\ Forall2 (fun c x => char_eq f c x = true) w u
                   /\ denotes f re' (last_of prev u) m' rest
  | Many cs :: re' =>
      exists u m', m = u ++ m' /\ forallb (in_set cs) u = true
                   /\ denotes f re' (last_of prev u) m' rest
  | Many1 cs :: re' =>
      exists u m', m = u ++ m' /\ u <> [] /\ forallb (in_set cs) u = true
                   /\ denotes f re' (last_of prev u) m' rest
  | Bos :: re' => prev = None /\ denotes f re' prev m rest
  | Eos :: re' => at_end (m ++ rest) = true /\ denotes f re' prev m rest
  | WordBoundary :: re' =>
      at_boundary prev (m ++ rest) = true /\ denotes f re' prev m rest
  end.

End Re.

(** ** [app/model.py] *)

Module Model.

Record QueryResponse (value : Type) := {
  sql : option str;
  answer : str;
  error : option str;
  columns : option (list str);
  rows : option (list (list value))
}.

Arguments sql {value}.
Arguments answer {value}.
Arguments error {value}.
Arguments columns {value}.
Arguments rows {value}.

End Model.

(** ** [app/query_engine.py] *)

(** Exceptions: the class name and what [str(exc)] returns. *)
Record exn := Exn { exn_class : str; exn_str : str }.

Definition ValueError (msg : str) : exn := Exn "ValueError" msg.

Inductive result (A : Type) :=
| Ok (a : A)
| Raise (e : exn).

Arguments Ok {A} a.
Arguments Raise {A} e.

(** The patterns, as written in the source. *)

(* r"^```[a-zA-Z0-9]*\s*" *)
Definition FENCE_OPEN : Re.regex :=
  [Re.Bos; Re.Lit "```"; Re.Many Re.AsciiAlnum; Re.Many Re.Whitespace].

(* r"\s*```$" *)
Definition FENCE_CLOSE : Re.regex :=
  [Re.Many Re.Whitespace; Re.Lit "```"; Re.Eos].

(* r"^\s*sql\s*\n" *)
Definition SQL_LINE : Re.regex :=
  [Re.Bos; Re.Many Re.Whitespace; Re.Lit "sql"; Re.Many Re.Whitespace; Re.Lit [LF]].

(* r"^\s*SQL\s*:\s*" *)
Definition SQL_LABEL : Re.regex :=
  [Re.Bos; Re.Many Re.Whitespace; Re.Lit "SQL"; Re.Many Re.Whitespace;
   Re.Lit ":"; Re.Many Re.Whitespace].

(* r"^\s*select\b" *)
Definition SELECT_ONLY : Re.regex :=
  [Re.Bos; Re.Many Re.Whitespace; Re.Lit "select"; Re.WordBoundary].

(* r"\blimit\s+\d+\b" *)
Definition HAS_LIMIT : Re.regex :=
  [Re.WordBoundary; Re.Lit "limit"; Re.Many1 Re.Whitespace; Re.Many1 Re.Digit;
   Re.WordBoundary].

Definition _clean_sql (text : str) : str :=
  let s := strip text in
  if contains N.eqb (ords "UNSUPPORTED") (upper s) then "UNSUPPORTED"
  else
    let s := Re.sub FENCE_OPEN "" s Re.NoFlags in
    let s := Re.sub FENCE_CLOSE "" s Re.NoFlags in
    let s := Re.sub SQL_LINE "" s Re.IGNORECASE in
    let s := Re.sub SQL_LABEL "" s Re.IGNORECASE in
    let parts := map strip (split ";" s) in
    let first := hd "" (filter truthy parts) in
    if truthy first then first ++ ";" else "".

Definition _enforce_select_only (sql : str) : result str :=
  if negb (Re.found (Re.match_ SELECT_ONLY sql Re.IGNORECASE))
  then Raise (ValueError "Only SELECT statements are allowed.")
  else Ok sql.

(** [limit] is an [Optional[int]]: [None] and [0] are falsy. *)
Definition limit_given (limit : option Z) : bool :=
  match limit with
  | None => false
  | Some n => negb (n =? 0)%Z
  end.

Definition int_of_limit (limit : option Z) : Z :=
  match limit with
  | Some n => n
  | None => 0%Z
  end.

Definition _apply_limit (sql : str) (limit : option Z) : str :=
  if negb (limit_given limit) then sql
  else if Re.found (Re.search HAS_LIMIT sql Re.IGNORECASE) then sql
  else
    let sql_no_sc := rstrip_chars ";" (rstrip sql) in
    sql_no_sc ++ " LIMIT " ++ str_of_Z (int_of_limit limit) ++ ";".

Definition _format_rows_for_answer {value : Type} (str_value : value -> str)
  (rows : list (list value)) : str :=
  match rows with
  | [] => "No rows matched your query."
  | [[v]] => "The result is " ++ str_value v ++ "."
  | _ =>
      let preview := Nat.min (length rows) 5 in
      "Found " ++ str_of_nat (length rows) ++ " row(s). Showing top "
        ++ str_of_nat preview ++ "."
  end.

(** The collaborators of the engine.  [llm_predict] is [LLM.predict];
    [exec_driver_sql] opens a connection and runs a statement, giving
    [None] when the result returns no rows and the columns and rows
    otherwise; [get_table_info] is [DB.get_table_info], which reads the
    schema (and sample rows) from the database and returns its
    description.  Each of the three acts on the world and may raise.
    [dialect] is the name of the configured dialect, and [prompt_format]
    is [PROMPT.format] with the template of the prompt file, which raises
    when the template does not fit the four variables. *)
Record Backend := {
  value : Type;
  str_value : value -> str;
  World : Type;
  llm_predict : str -> World -> result str * World;
  exec_driver_sql :
    str -> World -> result (option (list str * list (list value))) * World;
  get_table_info : World -> result str * World;
  dialect : str;
  prompt_format : str -> str -> str -> str -> result str
}.

(** Calls made to the collaborators, oldest first: the schema read of
    [_generate_sql], a call of the model, a statement handed to the driver
    by [_execute_sql]. *)
Inductive event :=
| GetTableInfo
| LlmPredict (prompt : str)
| DbExecute (sql : str).

Section Engine.

Context (B : Backend).

Definition state : Type := World B * list event.

(** Computations that read and update the state and may raise. *)
Definition M (A : Type) : Type := state -> result A * state.

Definition ret {A : Type} (a : A) : M A := fun st => (Ok a, st).

Definition raise {A : Type} (e : exn) : M A := fun st => (Raise e, st).

Definition bind {A C : Type} (m : M A) (k : A -> M C) : M C :=
  fun st =>
    match m st with
    | (Ok a, st') => k a st'
    | (Raise e, st') => (Raise e, st')
    end.

(** [try: m except Exception as exc: h exc] *)
Definition try_except {A : Type} (m : M A) (h : exn -> M A) : M A :=
  fun st =>
    match m st with
    | (Ok a, st') => (Ok a, st')
    | (Raise e, st') => h e st'
    end.

Definition lift {A : Type} (r : result A) : M A := fun st => (r, st).

Notation "x <- m ;; k" := (bind m (fun x => k))
  (at level 61, m at next level, right associativity).

Definition LLM_predict (prompt : str) : M str :=
  fun st =>
    let (r, w) := llm_predict B prompt (fst st) in
    (r, (w, snd st ++ [LlmPredict prompt])).

Definition DB_exec (sql : str) : M (option (list str * list (list (value B)))) :=
  fun st =>
    let (r, w) := exec_driver_sql B sql (fst st) in
    (r, (w, snd st ++ [DbExecute sql])).

Definition DB_get_table_info : M str :=
  fun st =>
    let (r, w) := get_table_info B (fst st) in
    (r, (w, snd st ++ [GetTableInfo])).

Definition _generate_sql (question : str) (top_k : Z) : M str :=
  schema <- DB_get_table_info ;;
  let dialect := dialect B in
  prompt <- lift (prompt_format B question schema dialect (str_of_Z top_k)) ;;
  raw <- LLM_predict prompt ;;
  let sql := _clean_sql raw in
  lift (_enforce_select_only sql).

Definition _execute_sql (sql : str) : M (list str * list (list (value B))) :=
  if negb (truthy sql)
  then raise (ValueError "Generated SQL was empty after sanitization.")
  else
    result <- DB_exec sql ;;
    match result with
    | None => ret ([], [])
    | Some (columns, rows) => ret (columns, rows)
    end.

Definition nonempty {A : Type} (l : list A) : bool :=
  match l with
  | [] => false
  | _ :: _ => true
  end.

Definition _summarize_table (question : str) (columns : list str)
  (rows : list (list (value B))) : M str :=
  if negb (nonempty columns) || negb (nonempty rows)
  then ret "There was no data to summarize."
  else
    let header := join " | " columns in
    let sep := join " | " (repeat "---" (length columns)) in
    let body :=
      join [LF] (map (fun row => join " | " (map (str_value B) row))
                     (firstn 30 rows)) in
    let table_md := header ++ [LF] ++ sep ++ [LF] ++ body in
    let prompt :=
      "The user asked: '" ++ question ++ "'" ++ [LF; LF]
      ++ "The following table was returned:" ++ [LF; LF] ++ table_md
      ++ [LF; LF]
      ++ "Write a short, conversational summary of this data. Highlight interesting values, trends, or anomalies." in
    try_except
      (response <- LLM_predict prompt ;; ret (strip response))
      (fun exc => ret "Here is the data as requested.").

Definition process_question (question : str) (return_table : bool)
  (limit : option Z) : state -> Model.QueryResponse (value B) * state :=
  fun st =>
    let body : M (Model.QueryResponse (value B)) :=
      sql <- _generate_sql question 5 ;;
      if list_eq_dec N.eq_dec (upper (strip sql)) (ords "UNSUPPORTED")
      then
        ret {| Model.sql := None;
               Model.answer := "Sorry, I cannot answer that question based on the available data.";
               Model.error := None;
               Model.columns := Some [];
               Model.rows := Some [] |}
      else
        let sql := _apply_limit sql limit in
        cr <- _execute_sql sql ;;
        let columns := fst cr in
        let rows := snd cr in
        answer <- (if return_table
                   then _summarize_table question columns rows
                   else ret (_format_rows_for_answer (str_value B) rows)) ;;
        ret {| Model.sql := Some sql;
               Model.answer := answer;
               Model.error := None;
               Model.columns := if return_table then Some columns else None;
               Model.rows := if return_table then Some rows else None |}
    in
    match body st with
    | (Ok response, st') => (response, st')
    | (Raise exc, st') =>
        ({| Model.sql := None;
            Model.answer := "An error occurred while processing your question.";
            Model.error := Some (exn_str exc);
            Model.columns := None;
            Model.rows := None |}, st')
    end.

End Engine.

(** ** Notions used by the specification *)

(** The test of [_clean_sql] for the marker, on any text. *)
Definition mentions_unsupported (raw : str) : bool :=
  contains N.eqb (ords "UNSUPPORTED") (upper raw).

(** The text has a substring that reads [kw] once lower-cased. *)
Definition occurs_ignoring_case (kw raw : str) : Prop :=
  exists pre w post, raw = pre ++ w ++ post /\ map lower w = kw.

(** The stages of [_clean_sql] after the sentinel test. *)
Definition strip_fences (s : str) : str :=
  Re.sub FENCE_CLOSE "" (Re.sub FENCE_OPEN "" s Re.NoFlags) Re.NoFlags.

Definition strip_labels (s : str) : str :=
  Re.sub SQL_LABEL "" (Re.sub SQL_LINE "" s Re.IGNORECASE) Re.IGNORECASE.

Definition first_statement (s : str) : str :=
  let parts := map strip (split ";" s) in
  let first := hd "" (filter truthy parts) in
  if truthy first then first ++ ";" else "".

(** A completion wrapped in a fenced code block: optional surrounding
    whitespace, the opening fence with its language tag on a line of its
    own, the content, and the closing fence on a line of its own. *)
Definition fenced (lead tag inner trail : str) : str :=
  lead ++ "```" ++ tag ++ [LF] ++ inner ++ [LF] ++ "```" ++ trail.

(** The statement matches [^\s*select\b], ignoring case: optional
    whitespace, the keyword, then no word character. *)
Definition starts_with_select (sql : str) : Prop :=
  exists ws kw rest,
    sql = ws ++ kw ++ rest
    /\ forallb isspace ws = true
    /\ map lower kw = "select"
    /\ Re.word_at (hd_error rest) = false.

(** The same set of texts, told through [str.upper]: optional whitespace,
    six characters that upper-case to "SELECT", then no word character.
    The characters that [re.IGNORECASE] matches with s, e, l, c or t are
    those that upper-case to that letter: the letter in either case and,
    for s, U+017F. *)
Definition reads_select (sql : str) : Prop :=
  exists ws kw rest,
    sql = ws ++ kw ++ rest
    /\ forallb isspace ws = true
    /\ length kw = 6
    /\ upper kw = ords "SELECT"
    /\ Re.word_at (hd_error rest) = false.

(** The statement contains a match of [\blimit\s+\d+\b], ignoring case:
    the keyword not preceded by a word character, whitespace, and digits
    not followed by a word character. *)
Definition has_limit_clause (sql : str) : Prop :=
  exists pre kw ws ds post,
    sql = pre ++ kw ++ ws ++ ds ++ post
    /\ Re.word_at (Re.last_of None pre) = false
    /\ map lower kw = "limit"
    /\ ws <> [] /\ forallb isspace ws = true
    /\ ds <> [] /\ forallb isdecimal ds = true
    /\ Re.word_at (hd_error post) = false.

Definition ends_with (p : ascii -> bool) (s : str) : Prop :=
  exists s' c, s = s' ++ [c] /\ p c = true.

(** The Limit Enforcer as the specification words it: with a limit given
    and no LIMIT clause present, trailing whitespace is ignored, one
    trailing semicolon is removed if there is one, and the clause is
    appended. *)
Definition strip_one_semicolon (s : str) : str :=
  match rev (rstrip s) with
  | c :: r => if Ascii.eqb c ";" then rev r else rstrip s
  | [] => []
  end.

Definition apply_limit_as_specified (sql : str) (limit : option Z) : str :=
  if negb (limit_given limit) then sql
  else if Re.found (Re.search HAS_LIMIT sql Re.IGNORECASE) then sql
  else strip_one_semicolon sql ++ " LIMIT " ++ str_of_Z (int_of_limit limit) ++ ";".

(** The responses of the orchestrator. *)
Definition refusal_response (value : Type) : Model.QueryResponse value :=
  {| Model.sql := None;
     Model.answer := "Sorry, I cannot answer that question based on the available data.";
     Model.error := None;
     Model.columns := Some [];
     Model.rows := Some [] |}.

Definition failure_response (value : Type) (detail : str) : Model.QueryResponse value :=
  {| Model.sql := None;
     Model.answer := "An error occurred while processing your question.";
     Model.error := Some detail;
     Model.columns := None;
     Model.rows := None |}.

(** The prompt [_generate_sql] builds for a question from the schema
    text it has read. *)
Definition generation_prompt (B : Backend) (question schema : str) : result str :=
  prompt_format B question schema (dialect B) (str_of_Z 5).

(** From state [st], [_generate_sql] gets as far as the model call: the
    schema read succeeds and leaves the world [w0], and the template gives
    [prompt]. *)
Definition prompted (B : Backend) (question : str) (st : state B)
  (prompt : str) (w0 : World B) : Prop :=
  exists schema,
    get_table_info B (fst st) = (Ok schema, w0)
    /\ generation_prompt B question schema = Ok prompt.

(** The prompt [_summarize_table] sends for a non-empty table. *)
Definition summary_prompt (B : Backend) (question : str) (columns : list str)
  (rows : list (list (value B))) : str :=
  let header := join " | " columns in
  let sep := join " | " (repeat "---" (length columns)) in
  let body :=
    join [LF] (map (fun row => join " | " (map (str_value B) row))
                   (firstn 30 rows)) in
  let table_md := header ++ [LF] ++ sep ++ [LF] ++ body in
  "The user asked: '" ++ question ++ "'" ++ [LF; LF]
  ++ "The following table was returned:" ++ [LF; LF] ++ table_md
  ++ [LF; LF]
  ++ "Write a short, conversational summary of this data. Highlight interesting values, trends, or anomalies.".

(** What [_execute_sql] makes of the driver's result. *)
Definition table_of {value : Type} (r : option (list str * list (list value))) :
  list str * list (list value) :=
  match r with
  | None => ([], [])
  | Some cr => cr
  end.

(** Backends with canned answers and integer cells, for running the
    engine on concrete inputs. *)
Definition scripted_with (info : result str) (llm : str -> result str)
  (db : str -> result (option (list str * list (list Z)))) : Backend :=
  {| value := Z;
     str_value := str_of_Z;
     World := unit;
     llm_predict := fun prompt w => (llm prompt, w);
     exec_driver_sql := fun sql w => (db sql, w);
     get_table_info := fun w => (info, w);
     dialect := "sqlite";
     prompt_format := fun question schema dialect top_k =>
       Ok (schema ++ [LF] ++ dialect ++ [LF] ++ top_k ++ [LF] ++ question) |}.

Definition scripted_schema : str :=
  "CREATE TABLE volumes (period TEXT, tons INTEGER)".

Definition scripted (llm : str -> result str)
  (db : str -> result (option (list str * list (list Z)))) : Backend :=
  scripted_with (Ok scripted_schema) llm db.

(** The prompt a scripted backend builds for a question. *)
Definition scripted_prompt (question : str) : str :=
  scripted_schema ++ [LF] ++ "sqlite" ++ [LF] ++ "5" ++ [LF] ++ question.

(** ** [app/main.py] *)

Module Main.

(** [QueryRequest] of [app/model.py]. *)
Record QueryRequest := {
  question : str;
  return_table : bool
}.

(** A Python [dict] with string keys, in insertion order: assigning to a
    key that is present replaces its value where it stands, assigning to
    a new key appends it. *)
Definition dict (V : Type) : Type := list (str * V).

Definition key_eqb (a b : str) : bool :=
  if list_eq_dec ascii_dec a b then true else false.

Fixpoint dict_set {V : Type} (k : str) (v : V) (d : dict V) : dict V :=
  match d with
  | [] => [(k, v)]
  | (k', v') :: d' =>
      if key_eqb k k' then (k', v) :: d' else (k', v') :: dict_set k v d'
  end.

Fixpoint dict_get {V : Type} (k : str) (d : dict V) : option V :=
  match d with
  | [] => None
  | (k', v') :: d' => if key_eqb k k' then Some v' else dict_get k d'
  end.

Definition IndexError : exn := Exn "IndexError" "list index out of range".

(** [{cols[i]: r[i] for i in range(len(cols))}], from index [i] on, into
    the dict built so far; [r[i]] raises when the row is too short. *)
Fixpoint record_from {V : Type} (cols : list str) (i : nat) (r : list V)
  (d : dict V) : result (dict V) :=
  match cols with
  | [] => Ok d
  | c :: cols' =>
      match nth_error r i with
      | Some v => record_from cols' (S i) r (dict_set c v d)
      | None => Raise IndexError
      end
  end.

(** The loop [for r in resp.rows: records.append({...})]. *)
Fixpoint records_of {V : Type} (cols : list str) (rows : list (list V)) :
  result (list (dict V)) :=
  match rows with
  | [] => Ok []
  | r :: rows' =>
      match record_from cols 0 r [] with
      | Raise e => Raise e
      | Ok d =>
          match records_of cols rows' with
          | Ok ds => Ok (d :: ds)
          | Raise e => Raise e
          end
      end
  end.

(** The dict [ask_question_records] returns. *)
Record RecordsResponse (value : Type) := {
  sql : option str;
  answer : str;
  error : option str;
  count : nat;
  records : list (dict value)
}.

Arguments sql {value}.
Arguments answer {value}.
Arguments error {value}.
Arguments count {value}.
Arguments records {value}.

(** Truthiness of an [Optional[list]]. *)
Definition some_nonempty {A : Type} (l : option (list A)) : bool :=
  match l with
  | Some (_ :: _) => true
  | _ => false
  end.

Definition get_list {A : Type} (l : option (list A)) : list A :=
  match l with
  | Some l' => l'
  | None => []
  end.

Section Endpoints.

Context (B : Backend).

Definition ask_question (req : QueryRequest) :
  state B -> Model.QueryResponse (value B) * state B :=
  process_question B (question req) (return_table req) None.

Definition ask_question_records (req : QueryRequest) :
  state B -> result (RecordsResponse (value B)) * state B :=
  fun st =>
    let (resp, st') := process_question B (question req) true None st in
    let records :=
      if some_nonempty (Model.columns resp) && some_nonempty (Model.rows resp)
      then
        let cols := get_list (Model.columns resp) in
        records_of cols (get_list (Model.rows resp))
      else Ok [] in
    match records with
    | Ok records =>
        (Ok {| sql := Model.sql resp;
               answer := Model.answer resp;
               error := Model.error resp;
               count := length records;
               records := records |}, st')
    | Raise e => (Raise e, st')
    end.

End Endpoints.

End Main.

(** ** [app/database.py]: the two dimension tables

    A table is its rows, in insertion order, and the largest id its
    AUTOINCREMENT column has used.  A connection is the pair of dimension
    tables.  The two statements of each helper fail only through the
    engine: a full disk, a lock, or an id column that has used its largest
    value, 2^63 - 1, after which SQLite refuses every insert.  These
    failures are not modelled: ids are unbounded integers and a statement
    is always carried out, so what is proved below is about the calls that
    the engine carries out. *)

Module Database.

Record period := {
  period_id : Z;
  label : option str;
  year_start : option Z;
  year_end : option Z
}.

Record port := {
  port_id : Z;
  name : str;
  state : option str
}.

Record table (R : Type) := {
  rows : list R;
  seq : Z
}.

Arguments rows {R}.
Arguments seq {R}.

Record connection := {
  periods : table period;
  ports : table port
}.

(** The id an [INTEGER PRIMARY KEY AUTOINCREMENT] column gives the next
    row: one more than the largest id the table holds or has held. *)
Definition next_id {R : Type} (id : R -> Z) (t : table R) : Z :=
  (1 + fold_right Z.max (seq t) (map id (rows t)))%Z.

Definition insert_row {R : Type} (id : R -> Z) (make : Z -> R) (t : table R) :
  Z * table R :=
  let i := next_id id t in
  (i, {| rows := rows t ++ [make i]; seq := i |}).

(** [fetchone] on [SELECT id ... WHERE column = ?]: of the matching rows,
    the one with the smallest id. *)
Definition first_by_id {R : Type} (id : R -> Z) (l : list R) : option R :=
  fold_right
    (fun r acc =>
       match acc with
       | None => Some r
       | Some r' => if (id r <=? id r')%Z then Some r else Some r'
       end)
    None l.

Definition label_is (l : str) (r : period) : bool :=
  match label r with
  | Some l' => Main.key_eqb l' l
  | None => false
  end.

Definition name_is (n : str) (r : port) : bool := Main.key_eqb (name r) n.

Definition get_or_create_period (conn : connection) (l : str) : Z * connection :=
  let row := first_by_id period_id (filter (label_is l) (rows (periods conn))) in
  match row with
  | Some r => (period_id r, conn)
  | None =>
      let (i, t) :=
        insert_row period_id
          (fun i => {| period_id := i; label := Some l;
                       year_start := None; year_end := None |})
          (periods conn) in
      (i, {| periods := t; ports := ports conn |})
  end.

Definition get_or_create_port (conn : connection) (n : str) (s : option str) :
  Z * connection :=
  let row := first_by_id port_id (filter (name_is n) (rows (ports conn))) in
  match row with
  | Some r => (port_id r, conn)
  | None =>
      let (i, t) :=
        insert_row port_id
          (fun i => {| port_id := i; name := n; state := s |})
          (ports conn) in
      (i, {| periods := periods conn; ports := t |})
  end.

(** A freshly created schema. *)
Definition empty_connection : connection :=
  {| periods := {| rows := []; seq := 0 |}; ports := {| rows := []; seq := 0 |} |}.

(** A connection whose [periods] table holds two rows and has used ids
    up to 6. *)
Definition two_periods : connection :=
  {| periods :=
       {| rows := [ {| period_id := 1; label := Some "2022-23";
                       year_start := Some 2022%Z; year_end := Some 2023%Z |};
                    {| period_id := 4; label := Some "2023-24";
                       year_start := None; year_end := None |} ];
          seq := 6 |};
     ports := {| rows := []; seq := 0 |} |}.

(** The constraints of the [periods] table: [id] is a primary key and
    [label] is UNIQUE (NULL labels apart). *)
Definition periods_keyed (conn : connection) : Prop :=
  NoDup (map period_id (rows (periods conn)))
  /\ (forall r1 r2 l,
        In r1 (rows (periods conn)) -> In r2 (rows (periods conn)) ->
        label r1 = Some l -> label r2 = Some l -> r1 = r2).

End Database.

(** * Properties *)

(** ** Characters *)

Ltac each_char c :=
  destruct c as [[] [] [] [] [] [] [] []]; try reflexivity; try discriminate.

Lemma isdecimal_isword (c : ascii) : isdecimal c = true -> isword c = true.
Proof. each_char c. Qed.

Lemma isspace_upper (c : ascii) : isspace c = true -> upper_char c = [ord c].
Proof. each_char c. Qed.

(** ** Lists and stripping *)

Section Dropwhile.

Context {A : Type} (p : A -> bool).

Lemma dropwhile_all (l : list A) : forallb p l = true -> dropwhile p l = [].
Proof.
  induction l as [|x l IH]; simpl; [reflexivity|].
  destruct (p x); simpl; [exact IH | discriminate].
Qed.

Lemma dropwhile_app_all (l r : list A) :
  forallb p l = true -> dropwhile p (l ++ r) = dropwhile p r.
Proof.
  induction l as [|x l IH]; simpl; [reflexivity|].
  destruct (p x); simpl; [exact IH | discriminate].
Qed.

Lemma dropwhile_stop (x : A) (l : list A) :
  p x = false -> dropwhile p (x :: l) = x :: l.
Proof. intros H. simpl. now rewrite H. Qed.

Lemma dropwhile_app_stop (l r : list A) (x : A) :
  p x = false -> dropwhile p (l ++ x :: r) = dropwhile p l ++ x :: r.
Proof.
  intros H. induction l as [|y l IH]; simpl.
  - now rewrite H.
  - destruct (p y); [exact IH | reflexivity].
Qed.

(** What [dropwhile] removes and what it leaves. *)
Lemma dropwhile_split (l : list A) :
  exists u, l = u ++ dropwhile p l /\ forallb p u = true.
Proof.
  induction l as [|x l [u [E H]]]; simpl.
  - exists []. split; reflexivity.
  - destruct (p x) eqn:Hx.
    + exists (x :: u). simpl. rewrite Hx, H. split; [now f_equal | reflexivity].
    + exists []. split; reflexivity.
Qed.

Lemma dropwhile_head (l : list A) (x : A) (r : list A) :
  dropwhile p l = x :: r -> p x = false.
Proof.
  induction l as [|y l IH]; simpl; [discriminate|].
  destruct (p y) eqn:Hy; [exact IH|].
  intros E. injection E as -> _. exact Hy.
Qed.

Lemma dropwhile_incl (l : list A) (x : A) : In x (dropwhile p l) -> In x l.
Proof.
  induction l as [|y l IH]; simpl; [tauto|].
  destruct (p y); [right; auto | trivial].
Qed.

End Dropwhile.

Lemma forallb_rev {A : Type} (p : A -> bool) (l : list A) :
  forallb p (rev l) = forallb p l.
Proof.
  induction l as [|x l IH]; simpl; [reflexivity|].
  rewrite forallb_app, IH. simpl. rewrite andb_true_r. apply andb_comm.
Qed.

(** [rstrip] removes a maximal run of trailing whitespace. *)
Lemma rstrip_split (s : str) :
  exists ws, s = rstrip s ++ ws /\ forallb isspace ws = true.
Proof.
  unfold rstrip. destruct (dropwhile_split isspace (rev s)) as [u [E H]].
  exists (rev u). split.
  - rewrite <- rev_app_distr, <- E. symmetry. apply rev_involutive.
  - now rewrite forallb_rev.
Qed.

Lemma rstrip_not_space (s : str) : ~ ends_with isspace (rstrip s).
Proof.
  intros [s' [c [E H]]]. unfold rstrip in E.
  apply (f_equal (@rev ascii)) in E.
  rewrite rev_involutive, rev_app_distr in E. simpl in E.
  apply dropwhile_head in E. congruence.
Qed.

Lemma rstrip_app_space (s ws : str) :
  forallb isspace ws = true -> rstrip (s ++ ws) = rstrip s.
Proof.
  intros H. unfold rstrip. rewrite rev_app_distr.
  rewrite dropwhile_app_all; [reflexivity | now rewrite forallb_rev].
Qed.

Lemma rstrip_stop (s : str) (c : ascii) :
  isspace c = false -> rstrip (s ++ [c]) = s ++ [c].
Proof.
  intros H. unfold rstrip. rewrite rev_app_distr. simpl. rewrite H.
  simpl. now rewrite rev_involutive.
Qed.

Lemma rstrip_all (ws : str) : forallb isspace ws = true -> rstrip ws = [].
Proof.
  intros H. unfold rstrip. rewrite dropwhile_all; [reflexivity|].
  now rewrite forallb_rev.
Qed.

Lemma rstrip_incl (s : str) (c : ascii) : In c (rstrip s) -> In c s.
Proof.
  unfold rstrip. intros H. apply in_rev in H.
  apply dropwhile_incl in H. now apply in_rev.
Qed.

Lemma strip_incl (s : str) (c : ascii) : In c (strip s) -> In c s.
Proof.
  unfold strip, lstrip. intros H. apply rstrip_incl in H.
  now apply dropwhile_incl in H.
Qed.

(** A string that is empty or whose ends are not whitespace is left alone. *)
Lemma rstrip_fixed (s : str) : ~ ends_with isspace s -> rstrip s = s.
Proof.
  intros H. destruct (rstrip_split s) as [ws [E Hws]].
  destruct ws as [|c ws _] using rev_ind.
  - now rewrite app_nil_r in E.
  - exfalso. apply H. exists (rstrip s ++ ws), c. split.
    + now rewrite <- app_assoc.
    + rewrite forallb_app in Hws. simpl in Hws.
      apply andb_true_iff in Hws. destruct Hws as [_ Hc].
      now rewrite andb_true_r in Hc.
Qed.

Lemma strip_split (s : str) :
  exists l r, s = l ++ strip s ++ r
              /\ forallb isspace l = true /\ forallb isspace r = true.
Proof.
  destruct (dropwhile_split isspace s) as [l [El Hl]].
  destruct (rstrip_split (lstrip s)) as [r [Er Hr]].
  exists l, r. repeat split; trivial.
  unfold strip. rewrite <- Er. exact El.
Qed.

Lemma strip_idempotent (s : str) : strip (strip s) = strip s.
Proof.
  unfold strip at 1.
  assert (Hl : lstrip (strip s) = strip s).
  { unfold strip. destruct (rstrip_split (lstrip s)) as [ws [E _]].
    destruct (rstrip (lstrip s)) as [|c r] eqn:Er; [reflexivity|].
    unfold lstrip at 1. apply dropwhile_stop.
    unfold lstrip in E. simpl in E.
    apply (dropwhile_head isspace s _ _ E). }
  rewrite Hl. apply rstrip_fixed. apply rstrip_not_space.
Qed.

Lemma strip_framed (lead body trail : str) (a b : ascii) :
  forallb isspace lead = true -> forallb isspace trail = true ->
  isspace a = false -> isspace b = false ->
  strip (lead ++ a :: body ++ b :: trail) = a :: body ++ [b].
Proof.
  intros Hl Ht Ha Hb. unfold strip, lstrip.
  rewrite dropwhile_app_all by exact Hl. rewrite dropwhile_stop by exact Ha.
  change (a :: body ++ b :: trail) with ((a :: body) ++ [b] ++ trail).
  rewrite app_assoc, rstrip_app_space by exact Ht.
  now apply rstrip_stop.
Qed.

Lemma strip_app_space (s ws : str) :
  forallb isspace ws = true -> strip (s ++ ws) = strip s.
Proof.
  intros H. unfold strip, lstrip.
  destruct (dropwhile_split isspace s) as [u [E Hu]].
  destruct (dropwhile isspace s) as [|c r] eqn:Ed.
  - rewrite app_nil_r in E. subst u.
    rewrite dropwhile_app_all by exact Hu.
    rewrite (dropwhile_all _ _ H). reflexivity.
  - pose proof (dropwhile_head _ _ _ _ Ed) as Hc.
    rewrite E at 1. rewrite <- app_assoc, dropwhile_app_all by exact Hu.
    simpl. rewrite Hc. change (c :: r ++ ws) with ((c :: r) ++ ws).
    now apply rstrip_app_space.
Qed.

(** ** Splitting *)

Lemma split_nonempty (sep : ascii) (s : str) : split sep s <> [].
Proof.
  destruct s as [|c s]; simpl; [discriminate|].
  destruct (Ascii.eqb c sep); [discriminate|].
  destruct (split sep s); discriminate.
Qed.

(** No segment contains the separator. *)
Lemma split_no_sep (sep : ascii) (s p : str) :
  In p (split sep s) -> ~ In sep p.
Proof.
  revert p. induction s as [|c s IH]; simpl; intros p H.
  - destruct H as [<- | []]. intros [].
  - destruct (Ascii.eqb_spec c sep) as [-> | Hne].
    + destruct H as [<- | H]; [intros [] | now apply IH].
    + destruct (split sep s) as [|q qs] eqn:E.
      * destruct H as [<- | []]. intros [H | []]. congruence.
      * destruct H as [<- | H].
        -- intros [H | H]; [congruence|]. apply (IH q); [now left | exact H].
        -- apply IH. now right.
Qed.

(** Joining the segments with the separator gives the text back. *)
Lemma join_split (sep : ascii) (s : str) : join [sep] (split sep s) = s.
Proof.
  induction s as [|c s IH]; simpl; [reflexivity|].
  destruct (Ascii.eqb_spec c sep) as [-> | Hne].
  - pose proof (split_nonempty sep s) as Hn.
    destruct (split sep s) as [|q qs]; [congruence|].
    simpl in *. now rewrite IH.
  - destruct (split sep s) as [|q qs] eqn:E.
    + now apply split_nonempty in E.
    + rewrite <- IH. destruct qs; reflexivity.
Qed.

(** The first truthy element of a list of strings. *)
Lemma first_truthy_none (l : list str) :
  (forall p, In p l -> p = []) -> hd [] (filter truthy l) = [].
Proof.
  induction l as [|q l IH]; simpl; intros H; [reflexivity|].
  rewrite (H q (or_introl eq_refl)). simpl. apply IH. intros p Hp. apply H. now right.
Qed.

Lemma first_truthy_at (before after : list str) (p : str) :
  (forall q, In q before -> q = []) -> p <> [] ->
  hd [] (filter truthy (before ++ p :: after)) = p.
Proof.
  induction before as [|q l IH]; simpl; intros H Hp.
  - destruct p; [congruence | reflexivity].
  - rewrite (H q (or_introl eq_refl)). simpl. apply IH; [|exact Hp].
    intros r Hr. apply H. now right.
Qed.

Lemma first_truthy_in (l : list str) :
  hd [] (filter truthy l) <> [] -> In (hd [] (filter truthy l)) l.
Proof.
  induction l as [|q l IH]; simpl; intros H; [congruence|].
  destruct q as [|c q]; simpl in *; [right; auto | now left].
Qed.

(** ** Substrings *)

Section Contains.

Context {A : Type} (eqb : A -> A -> bool).
Hypothesis eqb_spec : forall x y, eqb x y = true <-> x = y.

Lemma startswith_spec (n h : list A) :
  startswith eqb n h = true <-> exists post, h = n ++ post.
Proof.
  revert h. induction n as [|x n IH]; intros h; simpl.
  - split; [intros _; now exists h | reflexivity].
  - destruct h as [|y h].
    + split; [discriminate | intros [post E]; discriminate].
    + rewrite andb_true_iff, eqb_spec, IH. split.
      * intros [-> [post ->]]. now exists post.
      * intros [post E]. injection E as -> ->. split; [reflexivity | now exists post].
Qed.

Lemma contains_spec (n h : list A) :
  contains eqb n h = true <-> exists pre post, h = pre ++ n ++ post.
Proof.
  induction h as [|y h IH].
  - simpl. rewrite orb_false_r, startswith_spec. split.
    + intros [post E]. now exists [], post.
    + intros [pre [post E]]. destruct pre; [now exists post | discriminate].
  - simpl. rewrite orb_true_iff, startswith_spec, IH. split.
    + intros [[post E] | [pre [post E]]].
      * now exists [], post.
      * exists (y :: pre), post. simpl. now f_equal.
    + intros [[|z pre] [post E]].
      * left. now exists post.
      * right. injection E as _ E. now exists pre, post.
Qed.

(** An occurrence of [n] cannot overlap a prefix made of elements that
    do not occur in [n]. *)
Lemma occurrence_after (P : A -> Prop) (a h n pre post : list A) :
  Forall P a -> Forall (fun x => ~ P x) n -> n <> [] ->
  a ++ h = pre ++ n ++ post ->
  exists pre', h = pre' ++ n ++ post.
Proof.
  intros Ha Hn Hne. revert pre. induction Ha as [|x a Hx Ha IH]; intros pre E.
  - now exists pre.
  - destruct pre as [|y pre].
    + destruct n as [|z n]; [congruence|]. simpl in E. injection E as -> _.
      inversion Hn; subst. contradiction.
    + injection E as _ E. now apply IH with pre.
Qed.

Lemma occurrence_inside (P : A -> Prop) (a h c n : list A) :
  Forall P a -> Forall P c -> Forall (fun x => ~ P x) n -> n <> [] ->
  contains eqb n (a ++ h ++ c) = contains eqb n h.
Proof.
  intros Ha Hc Hn Hne.
  apply eq_true_iff_eq. rewrite !contains_spec. split.
  - intros [pre [post E]].
    destruct (occurrence_after P a (h ++ c) n pre post Ha Hn Hne E) as [pre' E'].
    apply (f_equal (@rev A)) in E'. rewrite !rev_app_distr in E'.
    rewrite <- app_assoc in E'.
    assert (Hrn : rev n <> []).
    { intros H. apply Hne. apply (f_equal (@rev A)) in H.
      now rewrite rev_involutive in H. }
    destruct (occurrence_after P (rev c) (rev h) (rev n) (rev post) (rev pre'))
      as [q E'']; trivial; try now apply Forall_rev.
    apply (f_equal (@rev A)) in E''.
    rewrite rev_involutive, !rev_app_distr, !rev_involutive in E''.
    exists pre', (rev q). now rewrite E'', <- app_assoc.
  - intros [pre [post ->]]. exists (a ++ pre), (post ++ c).
    now rewrite <- !app_assoc.
Qed.

End Contains.

Lemma upper_app (a b : str) : upper (a ++ b) = upper a ++ upper b.
Proof. unfold upper. apply flat_map_app. Qed.

Lemma upper_space (ws : str) :
  forallb isspace ws = true ->
  Forall (fun x => In x (ords [" "%char; LF]) \/ ~ In x (ords "UNSUPPORTED")) (upper ws).
Proof.
  induction ws as [|c ws IH]; simpl; intros H; [constructor|].
  apply andb_true_iff in H. destruct H as [Hc H].
  rewrite isspace_upper by exact Hc. simpl. constructor; [|now apply IH].
  right. revert Hc. each_char c; intros _; vm_compute; intuition discriminate.
Qed.

(** Stripping does not change whether the marker occurs. *)
Lemma mentions_unsupported_strip (raw : str) :
  mentions_unsupported (strip raw) = mentions_unsupported raw.
Proof.
  destruct (strip_split raw) as [l [r [E [Hl Hr]]]].
  unfold mentions_unsupported. rewrite E at 2. rewrite !upper_app.
  symmetry.
  apply occurrence_inside
    with (P := fun x => In x (ords [" "%char; LF]) \/ ~ In x (ords "UNSUPPORTED")).
  - intros x y. apply N.eqb_eq.
  - now apply upper_space.
  - now apply upper_space.
  - repeat constructor; vm_compute; intuition discriminate.
  - discriminate.
Qed.

(** The marker test against its declarative reading.  Upper-casing maps
    every character to one code point except sharp s, which becomes "SS";
    "UNSUPPORTED" has no "SS" and neither starts nor ends with "S", so an
    occurrence in the upper-cased text comes from eleven characters of
    the text itself. *)
Lemma upper_char_head (c : ascii) (x : N) (U V : list N) :
  upper_char c ++ U = x :: V -> In x (ords "UNSUPPORTED") ->
  (lower c = ascii_of_N (x + 32) /\ U = V)
  \/ (x = 83%N /\ exists V', V = 83%N :: V').
Proof.
  intros H Hx.
  assert (E : x = hd 0%N (upper_char c ++ U)) by now rewrite H.
  destruct c as [[] [] [] [] [] [] [] []]; cbn in H, E; subst x;
    first [ left; split; [reflexivity | now injection H]
          | right; split; [reflexivity|]; injection H as <-; now eexists
          | exfalso; cbn in Hx; intuition discriminate ].
Qed.

Lemma upper_char_shape (c : ascii) :
  (exists u, upper_char c = [u]) \/ upper_char c = [83%N; 83%N].
Proof.
  destruct c as [[] [] [] [] [] [] [] []];
    first [ right; reflexivity | left; eexists; reflexivity ].
Qed.

Lemma upper_of_lower (c : ascii) :
  In (lower c) ("unsupported" : str) -> upper_char c = [(ord (lower c) - 32)%N].
Proof.
  destruct c as [[] [] [] [] [] [] [] []]; intros H;
    first [ reflexivity | exfalso; cbn in H; intuition discriminate ].
Qed.

Ltac pull_char s c Hc H :=
  destruct s as [|c s]; [discriminate H|];
  cbn [upper flat_map] in H;
  apply upper_char_head in H;
  [destruct H as [[Hc H] | [? [? ?]]]; [|discriminate] | cbn; tauto].

Lemma upper_prefix_pullback (s : str) (post : list N) :
  upper s = ords "UNSUPPORTED" ++ post ->
  exists w t, s = w ++ t /\ map lower w = "unsupported".
Proof.
  intros H. cbn in H.
  pull_char s c1 H1 H. pull_char s c2 H2 H. pull_char s c3 H3 H.
  pull_char s c4 H4 H. pull_char s c5 H5 H. pull_char s c6 H6 H.
  pull_char s c7 H7 H. pull_char s c8 H8 H. pull_char s c9 H9 H.
  pull_char s c10 H10 H. pull_char s c11 H11 H.
  exists [c1; c2; c3; c4; c5; c6; c7; c8; c9; c10; c11], s.
  split; [reflexivity|]. cbn [map].
  rewrite H1, H2, H3, H4, H5, H6, H7, H8, H9, H10, H11. reflexivity.
Qed.

Lemma upper_pullback (raw : str) (pre post : list N) :
  upper raw = pre ++ ords "UNSUPPORTED" ++ post ->
  occurs_ignoring_case "unsupported" raw.
Proof.
  revert pre. induction raw as [|c raw IH]; intros pre H.
  - destruct pre; discriminate.
  - destruct pre as [|x pre].
    + apply upper_prefix_pullback in H. destruct H as [w [t [E Hw]]].
      exists [], w, t. now split.
    + assert (Hrest : exists pre', upper raw = pre' ++ ords "UNSUPPORTED" ++ post).
      { cbn [upper flat_map] in H.
        destruct (upper_char_shape c) as [[u E] | E]; rewrite E in H.
        - injection H as _ H. now exists pre.
        - destruct pre as [|y pre]; [discriminate|].
          injection H as _ _ H. now exists pre. }
      destruct Hrest as [pre' Hrest].
      destruct (IH pre' Hrest) as [a [w [b [-> Hw]]]].
      exists (c :: a), w, b. now split.
Qed.

Lemma upper_keyword (w : str) :
  map lower w = "unsupported" -> upper w = ords "UNSUPPORTED".
Proof.
  intros H.
  assert (Hin : Forall (fun c => In (lower c) ("unsupported" : str)) w).
  { apply Forall_forall. intros c Hc.
    apply (in_map lower) in Hc. now rewrite H in Hc. }
  assert (E : upper w = map (fun c => (ord (lower c) - 32)%N) w).
  { clear H. induction Hin as [|c w Hc _ IH]; [reflexivity|].
    cbn [upper flat_map map]. rewrite (upper_of_lower c Hc). simpl. f_equal.
    exact IH. }
  rewrite E, <- (map_map lower (fun k => (ord k - 32)%N)), H. reflexivity.
Qed.

Theorem mentions_unsupported_spec (raw : str) :
  mentions_unsupported raw = true <-> occurs_ignoring_case "unsupported" raw.
Proof.
  unfold mentions_unsupported. rewrite (contains_spec N.eqb N.eqb_eq). split.
  - intros [pre [post H]]. now apply upper_pullback with pre post.
  - intros [pre [w [post [-> Hw]]]].
    exists (upper pre), (upper post).
    now rewrite !upper_app, (upper_keyword w Hw).
Qed.

Lemma supported_not_mentioned (raw : str) :
  ~ occurs_ignoring_case "unsupported" raw -> mentions_unsupported raw = false.
Proof.
  rewrite <- mentions_unsupported_spec. apply not_true_is_false.
Qed.

(** ** Decimal numerals *)

Lemma string_of_uint_digits (d : Decimal.uint) :
  forallb isdecimal (list_ascii_of_string (NilEmpty.string_of_uint d)) = true.
Proof. induction d; simpl; trivial. Qed.

Lemma str_of_Z_positive (p : positive) :
  str_of_Z (Z.pos p) <> [] /\ forallb isdecimal (str_of_Z (Z.pos p)) = true.
Proof.
  unfold str_of_Z. simpl.
  pose proof (Unsigned.to_uint_nonnil p) as Hn.
  assert (E : NilZero.string_of_uint (Pos.to_uint p)
              = NilEmpty.string_of_uint (Pos.to_uint p)).
  { destruct (Pos.to_uint p); congruence || reflexivity. }
  rewrite E. split; [|apply string_of_uint_digits].
  destruct (Pos.to_uint p); congruence || discriminate.
Qed.

(** ** The matcher against the declarative reading *)

Lemma last_of_app (prev : option ascii) (u v : str) :
  Re.last_of prev (u ++ v) = Re.last_of (Re.last_of prev u) v.
Proof. revert prev. induction u as [|x u IH]; intros prev; simpl; auto. Qed.

Lemma last_of_snoc (prev : option ascii) (u : str) (x : ascii) :
  Re.last_of prev (u ++ [x]) = Some x.
Proof. now rewrite last_of_app. Qed.

Section Matcher.

Context (f : Re.flags).

Lemma lit_exact (w u : str) (k : Re.cont) (prev : option ascii) (s : str) :
  Forall2 (fun c x => Re.char_eq f c x = true) w u ->
  Re.lit f w k prev (u ++ s) = k (Re.last_of prev u) s.
Proof.
  intros H. revert prev. induction H as [|c x w u Hc _ IH]; intros prev; simpl.
  - reflexivity.
  - rewrite Hc. apply IH.
Qed.

Lemma lit_sound (w : str) (k : Re.cont) (prev : option ascii) (s r : str) :
  Re.lit f w k prev s = Some r ->
  exists u s', s = u ++ s'
               /\ Forall2 (fun c x => Re.char_eq f c x = true) w u
               /\ k (Re.last_of prev u) s' = Some r.
Proof.
  revert prev s. induction w as [|c w IH]; intros prev s H; simpl in H.
  - exists [], s. repeat split; [constructor | exact H].
  - destruct s as [|x s]; [discriminate|].
    destruct (Re.char_eq f c x) eqn:Hc; [|discriminate].
    destruct (IH _ _ H) as [u [s' [-> [Hu Hk]]]].
    exists (x :: u), s'. repeat split; [now constructor | exact Hk].
Qed.

Lemma many_sound (p : ascii -> bool) (k : Re.cont) (prev : option ascii) (s r : str) :
  Re.many p k prev s = Some r ->
  exists u s', s = u ++ s' /\ forallb p u = true
               /\ k (Re.last_of prev u) s' = Some r.
Proof.
  revert prev. induction s as [|x s IH]; intros prev H; simpl in H.
  - exists [], []. auto.
  - destruct (p x) eqn:Hx.
    + destruct (Re.many p k (Some x) s) as [r'|] eqn:Hm.
      * injection H as ->. destruct (IH _ Hm) as [u [s' [-> [Hu Hk]]]].
        exists (x :: u), s'. simpl. rewrite Hx. auto.
      * exists [], (x :: s). auto.
    + exists [], (x :: s). auto.
Qed.

Lemma many_complete (p : ascii -> bool) (k : Re.cont) (prev : option ascii) (u s : str) :
  forallb p u = true -> k (Re.last_of prev u) s <> None ->
  Re.many p k prev (u ++ s) <> None.
Proof.
  revert prev. induction u as [|x u IH]; intros prev Hu Hk; simpl in *.
  - destruct s as [|y s]; simpl; [exact Hk|].
    destruct (p y); [|exact Hk].
    destruct (Re.many p k (Some y) s); [discriminate | exact Hk].
  - apply andb_true_iff in Hu. destruct Hu as [Hx Hu]. rewrite Hx.
    specialize (IH (Some x) Hu Hk).
    destruct (Re.many p k (Some x) (u ++ s)); [discriminate | contradiction].
Qed.

(** A repetition that cannot go further and whose continuation then
    succeeds keeps the longest run. *)
Lemma many_greedy (p : ascii -> bool) (k : Re.cont) (prev : option ascii)
  (u s r : str) :
  forallb p u = true ->
  match s with [] => True | y :: _ => p y = false end ->
  k (Re.last_of prev u) s = Some r ->
  Re.many p k prev (u ++ s) = Some r.
Proof.
  revert prev. induction u as [|x u IH]; intros prev Hu Hs Hk; simpl in *.
  - destruct s as [|y s]; simpl; [exact Hk|]. now rewrite Hs.
  - apply andb_true_iff in Hu. destruct Hu as [Hx Hu]. rewrite Hx.
    now rewrite (IH (Some x) Hu Hs Hk).
Qed.

Lemma many_none (p : ascii -> bool) (k : Re.cont) (prev : option ascii) (s : str) :
  (forall u s', s = u ++ s' -> forallb p u = true ->
                k (Re.last_of prev u) s' = None) ->
  Re.many p k prev s = None.
Proof.
  revert prev. induction s as [|x s IH]; intros prev H; simpl.
  - apply (H [] []); reflexivity.
  - assert (H0 : k prev (x :: s) = None) by (apply (H [] (x :: s)); reflexivity).
    destruct (p x) eqn:Hx; [|exact H0].
    rewrite IH; [exact H0|].
    intros u s' -> Hu. apply (H (x :: u) s'); [reflexivity|].
    simpl. now rewrite Hx.
Qed.

Lemma many_all (p : ascii -> bool) (prev : option ascii) (s : str) :
  Re.many p (fun _ r => Some r) prev s = Some (dropwhile p s).
Proof.
  revert prev. induction s as [|x s IH]; intros prev; simpl; [reflexivity|].
  destruct (p x); [now rewrite IH | reflexivity].
Qed.

(** Soundness: what the matcher returns is a match of the pattern. *)
Theorem match_here_sound (re : Re.regex) (prev : option ascii) (s rest : str) :
  Re.match_here f re prev s = Some rest ->
  exists m, s = m ++ rest /\ Re.denotes f re prev m rest.
Proof.
  revert prev s. induction re as [|i re IH]; intros prev s H; simpl in H.
  - injection H as ->. exists []. split; reflexivity.
  - destruct i; simpl.
    + apply lit_sound in H. destruct H as [u [s' [-> [Hu Hk]]]].
      destruct (IH _ _ Hk) as [m [-> Hm]].
      exists (u ++ m). split; [now rewrite app_assoc|]. now exists u, m.
    + apply many_sound in H. destruct H as [u [s' [-> [Hu Hk]]]].
      destruct (IH _ _ Hk) as [m [-> Hm]].
      exists (u ++ m). split; [now rewrite app_assoc|]. now exists u, m.
    + unfold Re.many1 in H. destruct s as [|x s]; [discriminate|].
      destruct (Re.in_set cs x) eqn:Hx; [|discriminate].
      apply many_sound in H. destruct H as [u [s' [-> [Hu Hk]]]].
      destruct (IH _ _ Hk) as [m [-> Hm]].
      exists ((x :: u) ++ m). split; [simpl; now rewrite app_assoc|].
      exists (x :: u), m. simpl. rewrite Hx.
      repeat split; [discriminate | exact Hu | exact Hm].
    + destruct prev; [discriminate|].
      destruct (IH _ _ H) as [m [-> Hm]]. exists m. auto.
    + destruct (Re.at_end s) eqn:He; [|discriminate].
      destruct (IH _ _ H) as [m [-> Hm]]. exists m. auto.
    + destruct (Re.at_boundary prev s) eqn:Hb; [|discriminate].
      destruct (IH _ _ H) as [m [-> Hm]]. exists m. auto.
Qed.

(** Completeness: where the pattern has a match, the matcher finds one. *)
Theorem match_here_complete (re : Re.regex) (prev : option ascii) (m rest : str) :
  Re.denotes f re prev m rest ->
  Re.match_here f re prev (m ++ rest) <> None.
Proof.
  revert prev m. induction re as [|i re IH]; intros prev m H; simpl in *.
  - discriminate.
  - destruct i.
    + destruct H as [u [m' [-> [Hu Hm]]]]. rewrite <- app_assoc.
      rewrite (lit_exact _ _ _ _ _ Hu). now apply IH.
    + destruct H as [u [m' [-> [Hu Hm]]]]. rewrite <- app_assoc.
      apply many_complete; [exact Hu | now apply IH].
    + destruct H as [u [m' [-> [Hne [Hu Hm]]]]].
      destruct u as [|x u]; [congruence|].
      simpl in *. apply andb_true_iff in Hu. destruct Hu as [Hx Hu].
      rewrite Hx, <- app_assoc.
      apply many_complete; [exact Hu | now apply IH].
    + destruct H as [-> Hm]. now apply IH.
    + destruct H as [He Hm]. rewrite He. now apply IH.
    + destruct H as [Hb Hm]. rewrite Hb. now apply IH.
Qed.

Lemma search_from_sound (re : Re.regex) (prev : option ascii) (s rest : str) :
  Re.search_from f re prev s = Some rest ->
  exists pre m, s = pre ++ m ++ rest
                /\ Re.denotes f re (Re.last_of prev pre) m rest.
Proof.
  revert prev. induction s as [|x s IH]; intros prev H; simpl in H.
  - destruct (Re.match_here f re prev []) eqn:Hm; [|discriminate].
    injection H as ->. apply match_here_sound in Hm.
    destruct Hm as [m [E Hm]]. now exists [], m.
  - destruct (Re.match_here f re prev (x :: s)) eqn:Hm.
    + injection H as ->. apply match_here_sound in Hm.
      destruct Hm as [m [E Hm]]. now exists [], m.
    + destruct (IH _ H) as [pre [m [-> Hd]]]. now exists (x :: pre), m.
Qed.

Lemma search_from_complete (re : Re.regex) (prev : option ascii) (pre m rest : str) :
  Re.denotes f re (Re.last_of prev pre) m rest ->
  Re.search_from f re prev (pre ++ m ++ rest) <> None.
Proof.
  revert prev. induction pre as [|x pre IH]; intros prev H.
  - apply match_here_complete in H. simpl in *.
    destruct (m ++ rest); simpl;
      destruct (Re.match_here f re prev _); congruence.
  - simpl. destruct (Re.match_here f re prev (x :: pre ++ m ++ rest));
      [discriminate|]. now apply IH.
Qed.

(** [re.search] succeeds exactly where the pattern has a match. *)
Theorem search_spec (re : Re.regex) (s : str) :
  Re.found (Re.search re s f) = true <->
  exists pre m rest, s = pre ++ m ++ rest
                     /\ Re.denotes f re (Re.last_of None pre) m rest.
Proof.
  unfold Re.search. split.
  - destruct (Re.search_from f re None s) as [rest|] eqn:H; [|discriminate].
    intros _. apply search_from_sound in H.
    destruct H as [pre [m [E Hd]]]. now exists pre, m, rest.
  - intros [pre [m [rest [-> Hd]]]].
    apply (search_from_complete re None pre) in Hd.
    now destruct (Re.search_from f re None (pre ++ m ++ rest)).
Qed.

(** Substitution with a pattern anchored at the start. *)
Lemma sub_from_anchored (re : Re.regex) (repl : str) (c : ascii) (n : nat) (s : str) :
  Re.sub_from f (Re.Bos :: re) repl (Some c) n s = skipn n s.
Proof.
  revert c n. induction s as [|x s IH]; intros c n.
  - destruct n; reflexivity.
  - destruct n; simpl; now rewrite IH.
Qed.

Lemma skipn_length_app {A : Type} (l r : list A) : skipn (length l) (l ++ r) = r.
Proof. induction l; simpl; auto. Qed.

Theorem sub_anchored (re : Re.regex) (s : str) :
  Re.sub (Re.Bos :: re) "" s f =
  match Re.match_ (Re.Bos :: re) s f with
  | Some rest => rest
  | None => s
  end.
Proof.
  unfold Re.sub, Re.match_.
  destruct s as [|x s].
  - simpl. destruct (Re.match_here f re None []) eqn:H; [|reflexivity].
    apply match_here_sound in H. destruct H as [m [E _]].
    symmetry in E. apply app_eq_nil in E. now destruct E.
  - cbn [Re.sub_from].
    destruct (Re.match_here f (Re.Bos :: re) None (x :: s)) as [rest|] eqn:H.
    + apply match_here_sound in H. destruct H as [m [E _]].
      destruct m as [|y m]; simpl in E.
      * subst rest. rewrite Nat.sub_diag. simpl.
        now rewrite sub_from_anchored.
      * injection E as <- ->. simpl length. rewrite length_app.
        replace (S (length m + length rest) - length rest) with (S (length m)) by lia.
        simpl. rewrite sub_from_anchored. apply skipn_length_app.
    + simpl. now rewrite sub_from_anchored.
Qed.

End Matcher.

(** ** The patterns of the engine *)

Lemma char_eq_ignorecase (c x : ascii) :
  Re.char_eq Re.IGNORECASE c x = true <-> lower x = lower c.
Proof. apply Ascii.eqb_eq. Qed.

Lemma literal_ignorecase (w u : str) :
  Forall2 (fun c x => Re.char_eq Re.IGNORECASE c x = true) w u <->
  map lower u = map lower w.
Proof.
  revert u. induction w as [|c w IH]; intros u; split; intros H.
  - now inversion H.
  - destruct u; [constructor | discriminate].
  - inversion H; subst. simpl. f_equal; [now apply char_eq_ignorecase | now apply IH].
  - destruct u as [|x u]; [discriminate|]. simpl in H. injection H as Hx Hu.
    constructor; [now apply char_eq_ignorecase | now apply IH].
Qed.

Lemma isword_lower (x : ascii) : isword (lower x) = isword x.
Proof. each_char x. Qed.

Lemma last_of_in (prev : option ascii) (u : str) :
  u <> [] -> exists x, Re.last_of prev u = Some x /\ In x u.
Proof.
  revert prev. induction u as [|y u IH]; intros prev H; [congruence|].
  destruct u as [|z u].
  - exists y. simpl. auto.
  - destruct (IH (Some y)) as [x [E Hx]]; [discriminate|].
    exists x. split; [exact E | now right].
Qed.

Lemma last_of_forall (p : ascii -> bool) (prev : option ascii) (u : str) :
  u <> [] -> forallb p u = true ->
  exists x, Re.last_of prev u = Some x /\ p x = true.
Proof.
  intros Hne Hu. destruct (last_of_in prev u Hne) as [x [E Hx]].
  exists x. split; [exact E|].
  rewrite forallb_forall in Hu. now apply Hu.
Qed.

(** A keyword read ignoring case consists of word characters. *)
Lemma keyword_isword (w kw : str) :
  forallb isword w = true -> map lower kw = map lower w ->
  forallb isword kw = true.
Proof.
  revert kw. induction w as [|c w IH]; intros [|x kw] Hw E; try discriminate; trivial.
  simpl in *. injection E as Ex Ekw.
  apply andb_true_iff in Hw. destruct Hw as [Hc Hw].
  rewrite (IH kw Hw Ekw), andb_true_r.
  now rewrite <- isword_lower, Ex, isword_lower.
Qed.

(** The safety gate's pattern. *)
Theorem select_only_spec (sql : str) :
  Re.found (Re.match_ SELECT_ONLY sql Re.IGNORECASE) = true <->
  starts_with_select sql.
Proof.
  unfold Re.match_, starts_with_select. split.
  - destruct (Re.match_here Re.IGNORECASE SELECT_ONLY None sql) as [rest|] eqn:H;
      [intros _ | discriminate].
    apply match_here_sound in H. destruct H as [m [-> Hd]].
    destruct Hd as [_ [ws [m1 [-> [Hws [kw [m2 [-> [Hkw [Hb ->]]]]]]]]]].
    apply literal_ignorecase in Hkw. change (map lower "select") with ("select" : str) in Hkw.
    exists ws, kw, rest. rewrite app_nil_r, <- app_assoc.
    repeat split; trivial.
    destruct (last_of_forall isword (Re.last_of None ws) kw) as [x [E Hx]].
    + intros ->. discriminate.
    + now apply keyword_isword with ("select" : str).
    + unfold Re.at_boundary in Hb. rewrite E in Hb. simpl in Hb. rewrite Hx in Hb.
      simpl in Hb. now apply negb_true_iff in Hb.
  - intros [ws [kw [rest [-> [Hws [Hkw Hr]]]]]].
    assert (Hd : Re.denotes Re.IGNORECASE SELECT_ONLY None (ws ++ kw) rest).
    { split; [reflexivity|]. exists ws, kw. repeat split; trivial.
      exists kw, []. rewrite app_nil_r. repeat split.
      - now apply literal_ignorecase.
      - destruct (last_of_forall isword (Re.last_of None ws) kw) as [x [E Hx]].
        + intros ->. discriminate.
        + now apply keyword_isword with ("select" : str).
        + unfold Re.at_boundary. rewrite E. simpl. now rewrite Hx, Hr. }
    apply match_here_complete in Hd. rewrite <- app_assoc in Hd.
    now destruct (Re.match_here Re.IGNORECASE SELECT_ONLY None (ws ++ kw ++ rest)).
Qed.

(** The limit enforcer's pattern. *)
Theorem has_limit_spec (sql : str) :
  Re.found (Re.search HAS_LIMIT sql Re.IGNORECASE) = true <->
  has_limit_clause sql.
Proof.
  rewrite search_spec. unfold has_limit_clause. split.
  - intros [pre [m [post [-> Hd]]]].
    destruct Hd as [Hb [kw [m1 [-> [Hkw [ws [m2 [-> [Hne [Hws
      [ds [m3 [-> [Hnd [Hds [Hb' ->]]]]]]]]]]]]]]]].
    apply literal_ignorecase in Hkw. change (map lower "limit") with ("limit" : str) in Hkw.
    exists pre, kw, ws, ds, post. rewrite app_nil_r in *.
    rewrite <- !app_assoc. repeat split; trivial.
    + assert (Hw : forallb isword kw = true)
        by now apply keyword_isword with ("limit" : str).
      destruct kw as [|x kw]; [discriminate|]. simpl in Hw.
      apply andb_true_iff in Hw. destruct Hw as [Hx _].
      unfold Re.at_boundary in Hb. simpl in Hb. rewrite Hx in Hb.
      destruct (Re.word_at (Re.last_of None pre)); [discriminate | reflexivity].
    + destruct (last_of_forall isdecimal
                  (Re.last_of (Re.last_of (Re.last_of None pre) kw) ws) ds Hnd Hds)
        as [x [E Hx]].
      unfold Re.at_boundary in Hb'. rewrite E in Hb'. simpl in Hb'.
      rewrite (isdecimal_isword _ Hx) in Hb'. simpl in Hb'.
      now apply negb_true_iff in Hb'.
  - intros [pre [kw [ws [ds [post [-> [Hp [Hkw [Hne [Hws [Hnd [Hds Hpost]]]]]]]]]]]].
    exists pre, (kw ++ ws ++ ds), post. rewrite <- !app_assoc. split; [reflexivity|].
    assert (Hw : forallb isword kw = true)
      by now apply keyword_isword with ("limit" : str).
    split.
    { destruct kw as [|x kw]; [discriminate|]. simpl in Hw.
      apply andb_true_iff in Hw. destruct Hw as [Hx _].
      unfold Re.at_boundary. simpl. now rewrite Hx, Hp. }
    exists kw, (ws ++ ds). repeat split; [now apply literal_ignorecase|].
    exists ws, ds. repeat split; trivial.
    exists ds, []. rewrite app_nil_r. repeat split; trivial.
    destruct (last_of_forall isdecimal
                (Re.last_of (Re.last_of (Re.last_of None pre) kw) ws) ds Hnd Hds)
      as [x [E Hx]].
    unfold Re.at_boundary. rewrite E. simpl.
    now rewrite (isdecimal_isword _ Hx), Hpost.
Qed.

(** *** The code fences *)

Lemma sub_from_skip_all (f : Re.flags) (re : Re.regex) (prev : option ascii) (s : str) :
  Re.sub_from f re "" prev (length s) s = [].
Proof.
  revert prev. induction s as [|x s IH]; intros prev; simpl.
  - now destruct (Re.match_here f re prev []).
  - apply IH.
Qed.

Lemma fence_open_match (tag rest : str) :
  forallb is_ascii_alnum tag = true ->
  Re.match_ FENCE_OPEN ("```" ++ tag ++ LF :: rest) Re.NoFlags = Some (lstrip rest).
Proof.
  intros Htag. unfold Re.match_. cbn.
  apply many_greedy; [exact Htag | reflexivity |].
  rewrite many_all. reflexivity.
Qed.

Lemma sub_fence_open (tag rest : str) :
  forallb is_ascii_alnum tag = true ->
  Re.sub FENCE_OPEN "" ("```" ++ tag ++ LF :: rest) Re.NoFlags = lstrip rest.
Proof.
  intros Htag. unfold FENCE_OPEN. rewrite sub_anchored.
  fold FENCE_OPEN. now rewrite fence_open_match.
Qed.

(** After anything but the end of the text, a closing fence is not
    followed by the end of the text. *)
Lemma fence_close_tail (prev : option ascii) (q : str) :
  q <> [] ->
  Re.lit Re.NoFlags "```" (Re.match_here Re.NoFlags [Re.Eos]) prev (q ++ "```") = None.
Proof.
  intros Hq.
  destruct q as [|a [|b [|c [|d q]]]]; [congruence| | | |]; cbn;
    repeat match goal with
           | |- context [Ascii.eqb ?x ?y] => destruct (Ascii.eqb x y)
           end; try reflexivity.
  all: destruct (q ++ "```") eqn:E; [|reflexivity].
  all: destruct q; discriminate.
Qed.

Lemma prefix_split {A : Type} (p : A -> bool) (u s' t r : list A) :
  u ++ s' = t ++ r -> forallb p u = true -> forallb p t = false ->
  exists q, q <> [] /\ s' = q ++ r.
Proof.
  revert t. induction u as [|x u IH]; intros t E Hu Ht.
  - exists t. split; [intros ->; discriminate | exact E].
  - destruct t as [|y t]; [discriminate|].
    simpl in *. injection E as <- E.
    apply andb_true_iff in Hu. destruct Hu as [Hx Hu]. rewrite Hx in Ht.
    now apply (IH t).
Qed.

Lemma fence_close_here_none (prev : option ascii) (t : str) :
  forallb isspace t = false ->
  Re.match_here Re.NoFlags FENCE_CLOSE prev (t ++ "```") = None.
Proof.
  intros Ht. cbn [Re.match_here FENCE_CLOSE].
  apply many_none. intros u s' E Hu.
  destruct (prefix_split isspace u s' t _ (eq_sym E) Hu Ht) as [q [Hq ->]].
  now apply fence_close_tail.
Qed.

Lemma fence_close_here_all (prev : option ascii) (ws : str) :
  forallb isspace ws = true ->
  Re.match_here Re.NoFlags FENCE_CLOSE prev (ws ++ "```") = Some [].
Proof.
  intros Hws. cbn [Re.match_here FENCE_CLOSE].
  apply many_greedy; [exact Hws | reflexivity | reflexivity].
Qed.

Lemma rstrip_cons (y : ascii) (s : str) :
  forallb isspace (y :: s) = false -> rstrip (y :: s) = y :: rstrip s.
Proof.
  intros H. destruct (rstrip_split s) as [ws [E Hws]].
  rewrite E at 1. change (y :: rstrip s ++ ws) with ((y :: rstrip s) ++ ws).
  rewrite rstrip_app_space by exact Hws.
  apply rstrip_fixed. intros [s' [c [E' Hc]]].
  destruct s' as [|z s']; simpl in E'.
  - injection E' as -> E'. rewrite E' in E. simpl in E. subst s.
    simpl in H. now rewrite Hc, Hws in H.
  - injection E' as _ E'. apply (rstrip_not_space s). now exists s', c.
Qed.

Lemma sub_from_here (f : Re.flags) (re : Re.regex) (repl : str)
  (prev : option ascii) (x : ascii) (s : str) :
  Re.sub_from f re repl prev 0 (x :: s) =
  match Re.match_here f re prev (x :: s) with
  | Some rest =>
      match length (x :: s) - length rest with
      | S n => repl ++ Re.sub_from f re repl (Some x) n s
      | O => repl ++ x :: Re.sub_from f re repl (Some x) 0 s
      end
  | None => x :: Re.sub_from f re repl (Some x) 0 s
  end.
Proof. reflexivity. Qed.

Lemma sub_from_fence_close (prev : option ascii) (y : str) :
  Re.sub_from Re.NoFlags FENCE_CLOSE "" prev 0 (y ++ "```") = rstrip y.
Proof.
  revert prev. induction y as [|c y IH]; intros prev.
  - reflexivity.
  - change ((c :: y) ++ "```") with (c :: y ++ "```").
    rewrite sub_from_here.
    change (c :: y ++ "```") with ((c :: y) ++ "```").
    destruct (forallb isspace (c :: y)) eqn:H.
    + rewrite (rstrip_all _ H), (fence_close_here_all prev (c :: y) H).
      cbn [app length Nat.sub]. apply sub_from_skip_all.
    + rewrite (rstrip_cons _ _ H), (fence_close_here_none prev (c :: y) H).
      now rewrite IH.
Qed.

Ltac reassoc :=
  repeat (progress (cbn [app]; rewrite <- ?app_assoc)); reflexivity.

(** Stripping the fences of a fenced block leaves its trimmed content. *)
Theorem strip_fences_fenced (lead tag inner trail : str) :
  forallb isspace lead = true -> forallb isspace trail = true ->
  forallb is_ascii_alnum tag = true ->
  strip_fences (strip (fenced lead tag inner trail)) = strip inner.
Proof.
  intros Hl Ht Htag. unfold fenced, strip_fences.
  replace (lead ++ "```" ++ tag ++ [LF] ++ inner ++ [LF] ++ "```" ++ trail)
    with (lead ++ "`"%char :: ("``" ++ tag ++ [LF] ++ inner ++ [LF] ++ "``") ++ "`"%char :: trail)
    by reassoc.
  rewrite strip_framed by (trivial; reflexivity).
  replace ("`"%char :: ("``" ++ tag ++ [LF] ++ inner ++ [LF] ++ "``") ++ ["`"%char])
    with ("```" ++ tag ++ LF :: (inner ++ [LF]) ++ "```")
    by reassoc.
  rewrite sub_fence_open by exact Htag.
  unfold lstrip. change ("```" : str) with ("`"%char :: "``") at 1.
  rewrite dropwhile_app_stop by reflexivity.
  change (dropwhile isspace (inner ++ [LF]) ++ "`"%char :: "``")
    with (lstrip (inner ++ [LF]) ++ "```").
  unfold Re.sub. rewrite sub_from_fence_close.
  change (rstrip (lstrip (inner ++ [LF]))) with (strip (inner ++ [LF])).
  now apply strip_app_space.
Qed.

(** ** The safety gate *)

Lemma enforce_select_only_spec (sql : str) :
  (starts_with_select sql -> _enforce_select_only sql = Ok sql)
  /\ (~ starts_with_select sql ->
      _enforce_select_only sql
      = Raise (ValueError "Only SELECT statements are allowed.")).
Proof.
  unfold _enforce_select_only. rewrite <- select_only_spec.
  destruct (Re.found (Re.match_ SELECT_ONLY sql Re.IGNORECASE)); simpl; split;
    intros H; trivial; try discriminate. now contradiction H.
Qed.

Lemma select_is_nonempty (sql : str) : starts_with_select sql -> sql <> [].
Proof.
  intros [ws [kw [rest [-> [_ [Hkw _]]]]]] E.
  apply app_eq_nil in E. destruct E as [_ E].
  apply app_eq_nil in E. destruct E as [-> _]. discriminate.
Qed.

Lemma enforce_select_only_ok (sql accepted : str) :
  _enforce_select_only sql = Ok accepted ->
  accepted = sql /\ starts_with_select sql.
Proof.
  rewrite <- select_only_spec. unfold _enforce_select_only.
  destruct (Re.found (Re.match_ SELECT_ONLY sql Re.IGNORECASE)); simpl;
    [|discriminate].
  intros H. injection H as <-. now split.
Qed.

(** C10: the safety gate never modifies an accepted statement: when
    [_enforce_select_only] does not raise, what it returns is its input,
    character for character. *)
Theorem enforce_select_only_returns_input (sql accepted : str) :
  _enforce_select_only sql = Ok accepted -> accepted = sql.
Proof.
  intros H. now apply enforce_select_only_ok in H.
Qed.

Lemma enforce_select_only_returns_input_witness :
  _enforce_select_only "  select 1;" = Ok "  select 1;"
  /\ ("  select 1;" : str) = "  select 1;".
Proof.
  split; [reflexivity|].
  apply (enforce_select_only_returns_input "  select 1;" "  select 1;").
  reflexivity.
Defined.

(** ** The orchestrator *)

Section Orchestrator.

Context (B : Backend).

(** [_generate_sql] once the prompt is built: the model is called, and
    its completion is sanitized and put before the safety gate. *)
Lemma generate_sql_prompted (question : str) (st : state B) (prompt : str)
  (w0 : World B) :
  prompted B question st prompt w0 ->
  _generate_sql B question 5 st
  = (match fst (llm_predict B prompt w0) with
     | Ok raw => _enforce_select_only (_clean_sql raw)
     | Raise e => Raise e
     end,
     (snd (llm_predict B prompt w0), snd st ++ [GetTableInfo; LlmPredict prompt])).
Proof.
  intros [schema [Hinfo Hfmt]]. unfold generation_prompt in Hfmt.
  unfold _generate_sql, bind, DB_get_table_info, LLM_predict, lift.
  rewrite Hinfo, Hfmt. cbn [fst snd]. rewrite <- app_assoc. cbn [app].
  destruct (llm_predict B prompt w0) as [[raw|e] w]; reflexivity.
Qed.

Lemma generate_sql_run (question : str) (st : state B) (prompt raw : str)
  (w0 w : World B) :
  prompted B question st prompt w0 ->
  llm_predict B prompt w0 = (Ok raw, w) ->
  _generate_sql B question 5 st
  = (_enforce_select_only (_clean_sql raw),
     (w, snd st ++ [GetTableInfo; LlmPredict prompt])).
Proof.
  intros Hp H. now rewrite (generate_sql_prompted question st prompt w0 Hp), H.
Qed.

Lemma process_question_rejected (question : str) (return_table : bool)
  (limit : option Z) (st : state B) (prompt raw : str) (w0 w : World B) :
  prompted B question st prompt w0 ->
  llm_predict B prompt w0 = (Ok raw, w) ->
  _enforce_select_only (_clean_sql raw)
  = Raise (ValueError "Only SELECT statements are allowed.") ->
  process_question B question return_table limit st
  = (failure_response (value B) "Only SELECT statements are allowed.",
     (w, snd st ++ [GetTableInfo; LlmPredict prompt])).
Proof.
  intros Hp Hllm Hgate. unfold process_question, bind.
  now rewrite (generate_sql_run question st prompt raw w0 w Hp Hllm), Hgate.
Qed.

End Orchestrator.

(** C2: a statement that does not match [^\s*select\b] (ignoring case)
    makes the safety gate raise "Only SELECT statements are allowed.";
    when the sanitized completion is such a statement, [process_question]
    answers with null SQL, the generic failure message and that error
    text, and the statement is never executed: the only calls recorded
    are the schema read and the one to the model that came before the
    gate, and the world is the one the model call left. *)
Theorem non_select_statement_is_rejected :
  (forall sql : str,
      ~ starts_with_select sql ->
      _enforce_select_only sql
      = Raise (ValueError "Only SELECT statements are allowed."))
  /\ (forall (B : Backend) (question : str) (return_table : bool)
             (limit : option Z) (st : state B) (prompt raw : str)
             (w0 w : World B),
      prompted B question st prompt w0 ->
      llm_predict B prompt w0 = (Ok raw, w) ->
      ~ starts_with_select (_clean_sql raw) ->
      process_question B question return_table limit st
      = ({| Model.sql := None;
            Model.answer := "An error occurred while processing your question.";
            Model.error := Some "Only SELECT statements are allowed.";
            Model.columns := None;
            Model.rows := None |},
         (w, snd st ++ [GetTableInfo; LlmPredict prompt]))
      /\ (forall sql,
            In (DbExecute sql)
               (snd (snd (process_question B question return_table limit st))) ->
            In (DbExecute sql) (snd st))).
Proof.
  split; [intros sql; apply enforce_select_only_spec|].
  intros B question return_table limit st prompt raw w0 w Hp Hllm Hsel.
  pose proof (proj2 (enforce_select_only_spec (_clean_sql raw)) Hsel) as Hgate.
  pose proof (process_question_rejected B question return_table limit st prompt
                raw w0 w Hp Hllm Hgate) as Hrun.
  split; [exact Hrun|].
  intros sql. rewrite Hrun. simpl. rewrite in_app_iff.
  intros [H | [H | [H | []]]]; [exact H | discriminate | discriminate].
Qed.

Lemma non_select_statement_is_rejected_witness :
  let B := scripted (fun _ => Ok "DROP TABLE periods;") (fun _ => Ok None) in
  process_question B "How many periods are there?" true None (tt, [])
  = ({| Model.sql := None;
        Model.answer := "An error occurred while processing your question.";
        Model.error := Some "Only SELECT statements are allowed.";
        Model.columns := None;
        Model.rows := None |},
     (tt, [GetTableInfo;
           LlmPredict (scripted_prompt "How many periods are there?")])).
Proof.
  intros B.
  refine (proj1 (proj2 non_select_statement_is_rejected B
            "How many periods are there?" true None (tt, [])
            (scripted_prompt "How many periods are there?")
            "DROP TABLE periods;" tt tt _ _ _)).
  - exists scripted_schema. split; reflexivity.
  - reflexivity.
  - intros H. apply select_only_spec in H. vm_compute in H. discriminate.
Defined.

(** C1: the behaviour of the code on a completion carrying the
    "UNSUPPORTED" marker.  The sanitizer returns the sentinel, but
    [_generate_sql] passes the sentinel through the safety gate, which
    raises; [process_question] therefore answers with the generic failure
    and the gate's message, never with the refusal response. *)
Theorem unsupported_completion_is_rejected (B : Backend) (question : str)
  (return_table : bool) (limit : option Z) (st : state B) (prompt raw : str)
  (w0 w : World B) :
  prompted B question st prompt w0 ->
  llm_predict B prompt w0 = (Ok raw, w) ->
  occurs_ignoring_case "unsupported" raw ->
  _clean_sql raw = "UNSUPPORTED"
  /\ process_question B question return_table limit st
     = ({| Model.sql := None;
           Model.answer := "An error occurred while processing your question.";
           Model.error := Some "Only SELECT statements are allowed.";
           Model.columns := None;
           Model.rows := None |},
        (w, snd st ++ [GetTableInfo; LlmPredict prompt]))
  /\ fst (process_question B question return_table limit st)
     <> refusal_response (value B).
Proof.
  intros Hp Hllm Hraw. apply mentions_unsupported_spec in Hraw.
  assert (Hclean : _clean_sql raw = "UNSUPPORTED").
  { unfold _clean_sql. rewrite <- mentions_unsupported_strip in Hraw.
    unfold mentions_unsupported in Hraw. now rewrite Hraw. }
  assert (Hrun := process_question_rejected B question return_table limit st
                    prompt raw w0 w Hp Hllm).
  rewrite Hclean in Hrun. specialize (Hrun eq_refl).
  repeat split; trivial.
  rewrite Hrun. discriminate.
Qed.

Lemma unsupported_completion_is_rejected_witness :
  let B := scripted (fun _ => Ok "UNSUPPORTED: cannot answer") (fun _ => Ok None) in
  process_question B "What is the weather today?" true None (tt, [])
  = ({| Model.sql := None;
        Model.answer := "An error occurred while processing your question.";
        Model.error := Some "Only SELECT statements are allowed.";
        Model.columns := None;
        Model.rows := None |},
     (tt, [GetTableInfo;
           LlmPredict (scripted_prompt "What is the weather today?")])).
Proof.
  intros B.
  refine (proj1 (proj2 (unsupported_completion_is_rejected B
            "What is the weather today?" true None (tt, [])
            (scripted_prompt "What is the weather today?")
            "UNSUPPORTED: cannot answer" tt tt _ _ _))).
  - exists scripted_schema. split; reflexivity.
  - reflexivity.
  - exists "", "UNSUPPORTED", ": cannot answer". split; reflexivity.
Defined.

(** ** The executor *)

Lemma apply_limit_nonempty (sql : str) (limit : option Z) :
  sql <> [] -> _apply_limit sql limit <> [].
Proof.
  intros H. unfold _apply_limit.
  destruct (negb (limit_given limit)); [exact H|].
  destruct (Re.found (Re.search HAS_LIMIT sql Re.IGNORECASE)); [exact H|].
  intros E. apply app_eq_nil in E. destruct E as [_ E]. discriminate.
Qed.

Lemma execute_sql_nonempty (B : Backend) (sql : str) (st : state B) :
  sql <> [] ->
  _execute_sql B sql st
  = (match fst (exec_driver_sql B sql (fst st)) with
     | Ok r => Ok (table_of r)
     | Raise e => Raise e
     end,
     (snd (exec_driver_sql B sql (fst st)), snd st ++ [DbExecute sql])).
Proof.
  intros H. unfold _execute_sql, bind, DB_exec, ret.
  destruct sql as [|c sql]; [congruence|]. simpl.
  destruct (exec_driver_sql B (c :: sql) (fst st)) as [[[[cols rows]|]|e] w];
    reflexivity.
Qed.

(** C9: the executor raises [ValueError] on the empty string without
    touching the database; and a statement that passed the safety gate is
    not empty, stays non-empty under the limit enforcer, and so reaches
    the driver call: the empty-SQL branch is not taken on the pipeline's
    path. *)
Theorem empty_sql_branch_is_defensive (B : Backend) :
  (forall st : state B,
      _execute_sql B "" st
      = (Raise (ValueError "Generated SQL was empty after sanitization."), st))
  /\ (forall (sql accepted : str) (limit : option Z) (st : state B),
         _enforce_select_only sql = Ok accepted ->
         starts_with_select accepted
         /\ accepted <> ""
         /\ _apply_limit accepted limit <> ""
         /\ _execute_sql B (_apply_limit accepted limit) st
            = (match fst (exec_driver_sql B (_apply_limit accepted limit) (fst st)) with
               | Ok r => Ok (table_of r)
               | Raise e => Raise e
               end,
               (snd (exec_driver_sql B (_apply_limit accepted limit) (fst st)),
                snd st ++ [DbExecute (_apply_limit accepted limit)]))).
Proof.
  split; [reflexivity|].
  intros sql accepted limit st H.
  destruct (enforce_select_only_ok _ _ H) as [-> Hsel].
  pose proof (select_is_nonempty _ Hsel) as Hne.
  pose proof (apply_limit_nonempty sql limit Hne) as Hne'.
  repeat split; trivial.
  now apply execute_sql_nonempty.
Qed.

Lemma empty_sql_branch_is_defensive_witness :
  let B := scripted (fun _ => Ok "SELECT 1;") (fun _ => Ok (Some (["1"], [[1%Z]]))) in
  _execute_sql B (_apply_limit "SELECT 1;" (Some 10%Z)) (tt, [])
  = (Ok (["1"], [[1%Z]]), (tt, [DbExecute "SELECT 1 LIMIT 10;"])).
Proof.
  intros B.
  refine (proj2 (proj2 (proj2 (proj2 (empty_sql_branch_is_defensive B)
            "SELECT 1;" "SELECT 1;" (Some 10%Z) (tt, []) _)))).
  reflexivity.
Defined.

(** ** The summarizer *)

Lemma summarize_table_prompt (B : Backend) (question : str) (columns : list str)
  (rows : list (list (value B))) (st : state B) :
  columns <> [] -> rows <> [] ->
  _summarize_table B question columns rows st
  = (match fst (llm_predict B (summary_prompt B question columns rows) (fst st)) with
     | Ok response => Ok (strip response)
     | Raise _ => Ok "Here is the data as requested."
     end,
     (snd (llm_predict B (summary_prompt B question columns rows) (fst st)),
      snd st ++ [LlmPredict (summary_prompt B question columns rows)])).
Proof.
  intros Hc Hr. unfold _summarize_table.
  destruct columns as [|c columns]; [congruence|].
  destruct rows as [|r rows]; [congruence|].
  cbn [nonempty negb orb].
  unfold try_except, bind, LLM_predict, ret.
  fold (summary_prompt B question (c :: columns) (r :: rows)).
  destruct (llm_predict B (summary_prompt B question (c :: columns) (r :: rows)) (fst st))
    as [[response|e] w]; reflexivity.
Qed.

Lemma summarize_table_empty (B : Backend) (question : str) (columns : list str)
  (rows : list (list (value B))) (st : state B) :
  columns = [] \/ rows = [] ->
  _summarize_table B question columns rows st
  = (Ok "There was no data to summarize.", st).
Proof.
  intros [-> | ->]; unfold _summarize_table; [reflexivity|].
  destruct columns; reflexivity.
Qed.

Lemma summarize_table_total (B : Backend) (question : str) (columns : list str)
  (rows : list (list (value B))) (st : state B) :
  exists answer st', _summarize_table B question columns rows st = (Ok answer, st').
Proof.
  destruct columns as [|c columns].
  - eexists _, _. apply summarize_table_empty. now left.
  - destruct rows as [|r rows].
    + eexists _, _. apply summarize_table_empty. now right.
    + rewrite summarize_table_prompt by discriminate.
      destruct (fst (llm_predict B _ (fst st))); eexists _, _; reflexivity.
Qed.

(** ** The orchestrator on an accepted statement *)

(** A statement that starts with [select] is not the sentinel: the
    refusal branch of [process_question] is never entered after the
    safety gate. *)
Lemma select_is_not_sentinel (sql : str) :
  starts_with_select sql -> upper (strip sql) <> ords "UNSUPPORTED".
Proof.
  intros [ws [kw [rest [-> [Hws [Hkw Hrest]]]]]].
  destruct kw as [|k kw]; [discriminate|]. simpl in Hkw. injection Hkw as Hk _.
  assert (Hsp : isspace k = false) by (revert Hk; each_char k).
  assert (Hup : upper_char k = [83%N]) by (revert Hk; each_char k).
  unfold strip, lstrip. rewrite dropwhile_app_all by exact Hws.
  cbn [app]. rewrite dropwhile_stop by exact Hsp.
  rewrite rstrip_cons by (simpl; now rewrite Hsp).
  unfold upper. simpl. rewrite Hup. discriminate.
Qed.

Section Accepted.

Context (B : Backend).

Variables (question : str) (limit : option Z) (st : state B).
Variables (prompt raw : str) (w0 w1 w2 : World B).
Variable r : option (list str * list (list (value B))).

Let sql : str := _apply_limit (_clean_sql raw) limit.
Let gen : list event := [GetTableInfo; LlmPredict prompt].

Hypothesis Hprompt : prompted B question st prompt w0.
Hypothesis Hllm : llm_predict B prompt w0 = (Ok raw, w1).
Hypothesis Hsel : starts_with_select (_clean_sql raw).
Hypothesis Hexec : exec_driver_sql B sql w1 = (Ok r, w2).

Lemma process_question_executed (return_table : bool) :
  process_question B question return_table limit st
  = let st2 := (w2, (snd st ++ gen) ++ [DbExecute sql]) in
    let answered :=
      if return_table
      then _summarize_table B question (fst (table_of r)) (snd (table_of r)) st2
      else (Ok (_format_rows_for_answer (str_value B) (snd (table_of r))), st2) in
    match answered with
    | (Ok answer, st3) =>
        ({| Model.sql := Some sql;
            Model.answer := answer;
            Model.error := None;
            Model.columns := if return_table then Some (fst (table_of r)) else None;
            Model.rows := if return_table then Some (snd (table_of r)) else None |},
         st3)
    | (Raise exc, st3) => (failure_response (value B) (exn_str exc), st3)
    end.
Proof.
  unfold process_question, bind.
  rewrite (generate_sql_run B question st prompt raw w0 w1 Hprompt Hllm).
  rewrite (proj1 (enforce_select_only_spec _) Hsel).
  destruct (list_eq_dec N.eq_dec (upper (strip (_clean_sql raw))) (ords "UNSUPPORTED"))
    as [E|_]; [now apply select_is_not_sentinel in E|].
  fold sql. fold gen.
  rewrite execute_sql_nonempty
    by (apply apply_limit_nonempty; now apply select_is_nonempty).
  cbn [fst snd]. rewrite Hexec. cbn [fst snd].
  destruct return_table; [|reflexivity].
  destruct (_summarize_table B question (fst (table_of r)) (snd (table_of r))
              (w2, (snd st ++ gen) ++ [DbExecute sql])) as [[answer|e] st3];
    reflexivity.
Qed.

End Accepted.

(** X22: whatever the collaborators do, [process_question] never returns
    the refusal response: its branch for the sentinel lies behind the
    safety gate, which no sentinel passes. *)
Theorem refusal_is_unreachable (B : Backend) (question : str)
  (return_table : bool) (limit : option Z) (st : state B) :
  fst (process_question B question return_table limit st)
  <> refusal_response (value B).
Proof.
  unfold process_question, bind, refusal_response.
  destruct (_generate_sql B question 5 st) as [[sql|e] st1] eqn:Hgen;
    [|discriminate].
  assert (Hsel : starts_with_select sql).
  { unfold _generate_sql, bind, DB_get_table_info, LLM_predict, lift in Hgen.
    destruct (get_table_info B (fst st)) as [[schema|e] w0]; [|discriminate].
    destruct (prompt_format B question schema (dialect B) (str_of_Z 5))
      as [prompt|e]; [|discriminate].
    cbn [fst snd] in Hgen.
    destruct (llm_predict B prompt w0) as [[raw|e] w]; [|discriminate].
    injection Hgen as Hgate _.
    now destruct (enforce_select_only_ok _ _ Hgate) as [-> H]. }
  destruct (list_eq_dec N.eq_dec (upper (strip sql)) (ords "UNSUPPORTED"))
    as [E|_]; [now apply select_is_not_sentinel in E|].
  destruct (_execute_sql B (_apply_limit sql limit) st1) as [[cr|e] st2];
    [|discriminate].
  destruct return_table; [|discriminate].
  destruct (_summarize_table B question (fst cr) (snd cr) st2) as [[answer|e] st3];
    discriminate.
Qed.

(** C7: terse mode is a function of the row list alone, with three
    outcomes: the fixed text for no rows, "The result is {value}." for one
    row holding one value, and the row count with the preview size
    [min n 5] in every other case.  It is not a computation over the
    backend, and a terse request records no model call after the one that
    generated the SQL: its trace is the schema read, that model call and
    the execution. *)
Theorem terse_mode_outcomes (B : Backend) (rows : list (list (value B))) :
  (rows = [] ->
   _format_rows_for_answer (str_value B) rows = "No rows matched your query.")
  /\ (forall v, rows = [[v]] ->
      _format_rows_for_answer (str_value B) rows
      = "The result is " ++ str_value B v ++ ".")
  /\ (rows <> [] -> (forall v, rows <> [[v]]) ->
      _format_rows_for_answer (str_value B) rows
      = "Found " ++ str_of_nat (length rows) ++ " row(s). Showing top "
        ++ str_of_nat (Nat.min (length rows) 5) ++ ".")
  /\ (forall question limit (st : state B) prompt raw w0 w1 w2 columns,
      prompted B question st prompt w0 ->
      llm_predict B prompt w0 = (Ok raw, w1) ->
      starts_with_select (_clean_sql raw) ->
      exec_driver_sql B (_apply_limit (_clean_sql raw) limit) w1
      = (Ok (Some (columns, rows)), w2) ->
      process_question B question false limit st
      = ({| Model.sql := Some (_apply_limit (_clean_sql raw) limit);
            Model.answer := _format_rows_for_answer (str_value B) rows;
            Model.error := None;
            Model.columns := None;
            Model.rows := None |},
         (w2, (snd st ++ [GetTableInfo; LlmPredict prompt])
              ++ [DbExecute (_apply_limit (_clean_sql raw) limit)]))).
Proof.
  split; [|split; [|split]].
  - now intros ->.
  - now intros v ->.
  - intros Hne Hone. destruct rows as [|[|v [|v' row]] [|row' rows']];
      try reflexivity; [congruence | now contradiction (Hone v)].
  - intros question limit st prompt raw w0 w1 w2 columns Hp Hllm Hsel Hexec.
    now rewrite (process_question_executed B question limit st prompt raw w0 w1 w2
                   (Some (columns, rows)) Hp Hllm Hsel Hexec false).
Qed.

Lemma terse_mode_outcomes_witness :
  let B := scripted (fun _ => Ok "SELECT 1;") (fun _ => Ok None) in
  _format_rows_for_answer (str_value B) [] = "No rows matched your query."
  /\ _format_rows_for_answer (str_value B) [[1%Z]] = "The result is 1."
  /\ _format_rows_for_answer (str_value B) [[1%Z; 2%Z]; []; []; []; []; []]
     = "Found 6 row(s). Showing top 5."
  /\ snd (snd (process_question
                 (scripted (fun _ => Ok "SELECT 1;")
                           (fun _ => Ok (Some (["1"], [[1%Z]]))))
                 "one" false None (tt, [])))
     = [GetTableInfo; LlmPredict (scripted_prompt "one"); DbExecute "SELECT 1;"].
Proof.
  intros B. split; [|split; [|split]].
  - apply (proj1 (terse_mode_outcomes B [])). reflexivity.
  - apply (proj1 (proj2 (terse_mode_outcomes B [[1%Z]])) 1%Z). reflexivity.
  - apply (proj1 (proj2 (proj2 (terse_mode_outcomes B
             [[1%Z; 2%Z]; []; []; []; []; []]))));
      [discriminate | intros v; discriminate].
  - rewrite (proj2 (proj2 (proj2 (terse_mode_outcomes
               (scripted (fun _ => Ok "SELECT 1;")
                         (fun _ => Ok (Some (["1"], [[1%Z]]))))
               [[1%Z]]))) "one" None (tt, []) (scripted_prompt "one")
               "SELECT 1;" tt tt tt ["1"]).
    + reflexivity.
    + exists scripted_schema. split; reflexivity.
    + reflexivity.
    + apply select_only_spec. reflexivity.
    + reflexivity.
Defined.

(** C8: narrative-mode summarization never produces a request-level
    error.  With no columns or no rows [_summarize_table] returns the
    fixed text and leaves the state, and so the trace of model calls,
    as it was; when the model call raises, the exception is caught and the
    fixed fallback is returned; it returns normally in every case; and
    once a statement has been generated, accepted and executed,
    [process_question] answers with a null error whatever the model does
    during summarization. *)
Theorem summarization_never_fails_request (B : Backend) (question : str)
  (columns : list str) (rows : list (list (value B))) (st : state B) :
  (columns = [] \/ rows = [] ->
   _summarize_table B question columns rows st
   = (Ok "There was no data to summarize.", st))
  /\ (forall e w,
      columns <> [] -> rows <> [] ->
      llm_predict B (summary_prompt B question columns rows) (fst st) = (Raise e, w) ->
      _summarize_table B question columns rows st
      = (Ok "Here is the data as requested.",
         (w, snd st ++ [LlmPredict (summary_prompt B question columns rows)])))
  /\ (exists answer st',
      _summarize_table B question columns rows st = (Ok answer, st'))
  /\ (forall limit prompt raw w0 w1 w2,
      prompted B question st prompt w0 ->
      llm_predict B prompt w0 = (Ok raw, w1) ->
      starts_with_select (_clean_sql raw) ->
      exec_driver_sql B (_apply_limit (_clean_sql raw) limit) w1
      = (Ok (Some (columns, rows)), w2) ->
      Model.error (fst (process_question B question true limit st)) = None
      /\ Model.sql (fst (process_question B question true limit st))
         = Some (_apply_limit (_clean_sql raw) limit)
      /\ Model.columns (fst (process_question B question true limit st))
         = Some columns
      /\ Model.rows (fst (process_question B question true limit st))
         = Some rows).
Proof.
  split; [apply summarize_table_empty|].
  split.
  { intros e w Hc Hr H. rewrite summarize_table_prompt by assumption.
    now rewrite H. }
  split; [apply summarize_table_total|].
  intros limit prompt raw w0 w1 w2 Hp Hllm Hsel Hexec.
  rewrite (process_question_executed B question limit st prompt raw w0 w1 w2
             (Some (columns, rows)) Hp Hllm Hsel Hexec true).
  cbn [table_of fst snd].
  destruct (summarize_table_total B question columns rows
              (w2, (snd st ++ [GetTableInfo; LlmPredict prompt])
                   ++ [DbExecute (_apply_limit (_clean_sql raw) limit)]))
    as [answer [st' E]].
  rewrite E. repeat split.
Qed.

Lemma summarization_never_fails_request_witness :
  let B :=
    scripted (fun prompt => if startswith Ascii.eqb "The user asked" prompt
                            then Raise (Exn "TimeoutError" "model timed out")
                            else Ok "SELECT 1;")
             (fun _ => Ok (Some (["1"], [[1%Z]]))) in
  _summarize_table B "one" [] [[1%Z]] (tt, [])
  = (Ok "There was no data to summarize.", (tt, []))
  /\ _summarize_table B "one" ["1"] [[1%Z]] (tt, [])
     = (Ok "Here is the data as requested.",
        (tt, [LlmPredict (summary_prompt B "one" ["1"] [[1%Z]])]))
  /\ Model.error (fst (process_question B "one" true None (tt, []))) = None.
Proof.
  intros B. split; [|split].
  - apply (proj1 (summarization_never_fails_request B "one" [] [[1%Z]] (tt, []))).
    now left.
  - apply (proj1 (proj2 (summarization_never_fails_request B "one" ["1"] [[1%Z]]
                           (tt, [])))
             (Exn "TimeoutError" "model timed out") tt);
      [discriminate | discriminate | reflexivity].
  - apply (proj2 (proj2 (proj2 (summarization_never_fails_request B "one" ["1"]
                                  [[1%Z]] (tt, []))))
             None (scripted_prompt "one") "SELECT 1;" tt tt tt);
      [exists scripted_schema; split; reflexivity | reflexivity
      | apply select_only_spec; reflexivity | reflexivity].
Defined.

(** ** The limit enforcer *)

(** Dropping a maximal run of trailing characters. *)
Lemma rdrop_split (p : ascii -> bool) (s : str) :
  exists tail,
    s = rev (dropwhile p (rev s)) ++ tail
    /\ forallb p tail = true
    /\ ~ ends_with p (rev (dropwhile p (rev s))).
Proof.
  destruct (dropwhile_split p (rev s)) as [u [E H]].
  exists (rev u). repeat split.
  - rewrite <- rev_app_distr, <- E. symmetry. apply rev_involutive.
  - now rewrite forallb_rev.
  - intros [s' [c [E' Hc]]].
    apply (f_equal (@rev ascii)) in E'.
    rewrite rev_involutive, rev_app_distr in E'. simpl in E'.
    apply dropwhile_head in E'. congruence.
Qed.

Lemma apply_limit_unset (sql : str) (limit : option Z) :
  limit = None \/ limit = Some 0%Z -> _apply_limit sql limit = sql.
Proof. now intros [-> | ->]. Qed.

Lemma apply_limit_present (sql : str) (limit : option Z) :
  has_limit_clause sql -> _apply_limit sql limit = sql.
Proof.
  intros H. apply has_limit_spec in H. unfold _apply_limit. rewrite H.
  now destruct (negb (limit_given limit)).
Qed.

Lemma apply_limit_absent (sql : str) (n : Z) :
  n <> 0%Z -> ~ has_limit_clause sql ->
  _apply_limit sql (Some n)
  = rstrip_chars ";" (rstrip sql) ++ " LIMIT " ++ str_of_Z n ++ ";".
Proof.
  intros Hn H. rewrite <- has_limit_spec in H. unfold _apply_limit.
  apply not_true_is_false in H. rewrite H. simpl.
  apply Z.eqb_neq in Hn. now rewrite Hn.
Qed.

(** The clause the enforcer appends for a positive limit is one its own
    test recognizes. *)
Lemma appended_limit_is_found (base : str) (p : positive) :
  has_limit_clause (base ++ " LIMIT " ++ str_of_Z (Z.pos p) ++ ";").
Proof.
  destruct (str_of_Z_positive p) as [Hne Hds].
  exists (base ++ " "), ("LIMIT" : str), (" " : str), (str_of_Z (Z.pos p)), (";" : str).
  repeat split; trivial; try discriminate.
  - rewrite <- app_assoc. reflexivity.
  - now rewrite last_of_snoc.
Qed.

(** C3, as the code has it: [_apply_limit] returns its input when the
    limit is unset or zero, and when the input already holds a
    [LIMIT <digits>] clause (a case-insensitive whole-word match);
    otherwise it drops the trailing whitespace and then every trailing
    semicolon, and appends " LIMIT {limit};". *)
Theorem apply_limit_behaviour (sql : str) (limit : option Z) :
  (limit = None \/ limit = Some 0%Z -> _apply_limit sql limit = sql)
  /\ (has_limit_clause sql -> _apply_limit sql limit = sql)
  /\ (forall n, limit = Some n -> n <> 0%Z -> ~ has_limit_clause sql ->
      exists base semis ws,
        sql = base ++ semis ++ ws
        /\ forallb isspace ws = true
        /\ ~ ends_with isspace (base ++ semis)
        /\ Forall (fun c => c = ";"%char) semis
        /\ ~ ends_with (Ascii.eqb ";") base
        /\ _apply_limit sql limit = base ++ " LIMIT " ++ str_of_Z n ++ ";").
Proof.
  split; [apply apply_limit_unset|].
  split; [apply apply_limit_present|].
  intros n -> Hn Hno. rewrite (apply_limit_absent sql n Hn Hno).
  destruct (rdrop_split isspace sql) as [ws [Ews [Hws Hend]]].
  fold (rstrip sql) in Ews, Hend.
  destruct (rdrop_split (fun c => existsb (Ascii.eqb c) ";") (rstrip sql))
    as [semis [Esemis [Hsemis Hbase]]].
  fold (rstrip_chars ";" (rstrip sql)) in Esemis, Hbase.
  exists (rstrip_chars ";" (rstrip sql)), semis, ws.
  split; [now rewrite app_assoc, <- Esemis|].
  split; [exact Hws|].
  split; [now rewrite <- Esemis|].
  split.
  { apply Forall_forall. intros c Hc.
    rewrite forallb_forall in Hsemis. specialize (Hsemis c Hc).
    simpl in Hsemis. rewrite orb_false_r in Hsemis.
    now apply Ascii.eqb_eq in Hsemis. }
  split; [|reflexivity].
  intros [s' [c [E Hc]]]. apply Hbase. exists s', c. split; [exact E|].
  simpl. rewrite orb_false_r. now rewrite Ascii.eqb_sym.
Qed.

Lemma apply_limit_behaviour_witness :
  _apply_limit "SELECT * FROM volumes" None = "SELECT * FROM volumes"
  /\ _apply_limit "SELECT * FROM volumes limit  3" (Some 10%Z)
     = "SELECT * FROM volumes limit  3"
  /\ exists base semis ws,
       ("SELECT * FROM volumes;; " : str) = base ++ semis ++ ws
       /\ _apply_limit "SELECT * FROM volumes;; " (Some 10%Z)
          = base ++ " LIMIT " ++ str_of_Z 10 ++ ";".
Proof.
  split; [|split].
  - apply (proj1 (apply_limit_behaviour "SELECT * FROM volumes" None)). now left.
  - apply (proj1 (proj2 (apply_limit_behaviour "SELECT * FROM volumes limit  3"
                           (Some 10%Z)))).
    apply has_limit_spec. reflexivity.
  - destruct (proj2 (proj2 (apply_limit_behaviour "SELECT * FROM volumes;; "
                              (Some 10%Z))) 10%Z eq_refl)
      as [base [semis [ws [E [_ [_ [_ [_ H]]]]]]]].
    + discriminate.
    + intros H. apply has_limit_spec in H. vm_compute in H. discriminate.
    + exists base, semis, ws. split; [exact E | exact H].
Defined.

(** C3, as the specification words it, fails: with two trailing
    semicolons the code removes both, where removing one would leave a
    semicolon before the appended clause. *)
Lemma apply_limit_strips_every_semicolon :
  _apply_limit "SELECT 1;;" (Some 5%Z) = "SELECT 1 LIMIT 5;"
  /\ apply_limit_as_specified "SELECT 1;;" (Some 5%Z) = "SELECT 1; LIMIT 5;"
  /\ ~ (forall sql limit, _apply_limit sql limit = apply_limit_as_specified sql limit).
Proof.
  split; [reflexivity|]. split; [reflexivity|].
  intros H. specialize (H "SELECT 1;;" (Some 5%Z)). vm_compute in H. discriminate.
Qed.

(** C4, for limits that are unset, zero or positive: applying the limit
    enforcer twice gives what applying it once gives. *)
Theorem apply_limit_idempotent (sql : str) (limit : option Z) :
  (forall n, limit = Some n -> (0 <= n)%Z) ->
  _apply_limit (_apply_limit sql limit) limit = _apply_limit sql limit.
Proof.
  intros Hpos. destruct limit as [[|p|p]|].
  - reflexivity.
  - destruct (Re.found (Re.search HAS_LIMIT sql Re.IGNORECASE)) eqn:H.
    + apply has_limit_spec in H.
      now rewrite !(apply_limit_present sql (Some (Z.pos p)) H).
    + assert (Hno : ~ has_limit_clause sql)
        by (rewrite <- has_limit_spec; congruence).
      rewrite (apply_limit_absent sql (Z.pos p)) by (trivial; discriminate).
      apply apply_limit_present. apply appended_limit_is_found.
  - specialize (Hpos _ eq_refl). lia.
  - reflexivity.
Qed.

Lemma apply_limit_idempotent_witness :
  _apply_limit "SELECT * FROM volumes" (Some 10%Z) = "SELECT * FROM volumes LIMIT 10;"
  /\ _apply_limit (_apply_limit "SELECT * FROM volumes" (Some 10%Z)) (Some 10%Z)
     = _apply_limit "SELECT * FROM volumes" (Some 10%Z).
Proof.
  split; [reflexivity|].
  apply (apply_limit_idempotent "SELECT * FROM volumes" (Some 10%Z)).
  intros n H. injection H as <-. lia.
Defined.

(** C4 fails for a negative limit: the appended clause "LIMIT -1" is not
    matched by [\blimit\s+\d+\b], so a second application appends again. *)
Lemma apply_limit_negative_not_idempotent :
  _apply_limit "SELECT 1" (Some (-1)%Z) = "SELECT 1 LIMIT -1;"
  /\ _apply_limit (_apply_limit "SELECT 1" (Some (-1)%Z)) (Some (-1)%Z)
     = "SELECT 1 LIMIT -1 LIMIT -1;"
  /\ _apply_limit (_apply_limit "SELECT 1" (Some (-1)%Z)) (Some (-1)%Z)
     <> _apply_limit "SELECT 1" (Some (-1)%Z).
Proof.
  split; [reflexivity|]. split; [reflexivity|]. vm_compute. discriminate.
Qed.

(** ** The sanitizer *)

Lemma clean_sql_stages (text : str) :
  _clean_sql text
  = if mentions_unsupported (strip text) then "UNSUPPORTED"
    else first_statement (strip_labels (strip_fences (strip text))).
Proof. reflexivity. Qed.

Lemma clean_sql_supported (raw : str) :
  mentions_unsupported raw = false ->
  _clean_sql raw = first_statement (strip_labels (strip_fences (strip raw))).
Proof.
  intros H. rewrite clean_sql_stages, mentions_unsupported_strip. now rewrite H.
Qed.

Lemma split_at_sep (sep : ascii) (s t : str) :
  ~ In sep s -> split sep (s ++ sep :: t) = s :: split sep t.
Proof.
  induction s as [|c s IH]; intros H; simpl.
  - now rewrite Ascii.eqb_refl.
  - destruct (Ascii.eqb_spec c sep) as [-> | Hne].
    + contradiction H. now left.
    + rewrite IH; [reflexivity|]. intros Hin. apply H. now right.
Qed.

Lemma truthy_true (s : str) : truthy s = true <-> s <> [].
Proof. destruct s; simpl; split; congruence. Qed.

Lemma first_statement_none (text : str) :
  (forall p, In p (split ";" text) -> strip p = "") -> first_statement text = "".
Proof.
  intros H. unfold first_statement. rewrite first_truthy_none; [reflexivity|].
  intros p Hp. apply in_map_iff in Hp. destruct Hp as [q [<- Hq]]. now apply H.
Qed.

Lemma first_statement_at (text : str) (before after : list str) (p : str) :
  split ";" text = before ++ p :: after ->
  (forall q, In q before -> strip q = "") -> strip p <> "" ->
  first_statement text = strip p ++ ";".
Proof.
  intros E Hb Hp. unfold first_statement. rewrite E, map_app. simpl map.
  rewrite first_truthy_at; [|
    intros q Hq; apply in_map_iff in Hq; destruct Hq as [q' [<- Hq']]; now apply Hb
    | exact Hp].
  apply truthy_true in Hp. now rewrite Hp.
Qed.

(** What a non-empty result of the last stage looks like. *)
Lemma first_statement_shape (text : str) :
  first_statement text <> "" ->
  exists stmt,
    first_statement text = stmt ++ ";"
    /\ stmt <> "" /\ ~ In ";"%char stmt /\ strip stmt = stmt
    /\ split ";" (first_statement text) = [stmt; ""].
Proof.
  unfold first_statement.
  set (first := hd "" (filter truthy (map strip (split ";" text)))).
  destruct (truthy first) eqn:Ht; [intros _ | congruence].
  apply truthy_true in Ht.
  pose proof (first_truthy_in (map strip (split ";" text)) Ht) as Hin.
  fold first in Hin. apply in_map_iff in Hin. destruct Hin as [p [Ep Hp]].
  assert (Hsemi : ~ In ";"%char first).
  { rewrite <- Ep. intros H. apply strip_incl in H.
    now apply (split_no_sep ";" text p Hp). }
  exists first. repeat split; trivial.
  - rewrite <- Ep. apply strip_idempotent.
  - now rewrite split_at_sep.
Qed.

(** C5: on a completion without the "UNSUPPORTED" marker, the sanitizer
    splits the text left after trimming and unwrapping on ';' and keeps the
    first segment that is not blank, trimmed, with one ';' appended; it
    returns "" when every segment is blank.  So a non-empty result, and
    every statement [_generate_sql] returns, is a non-empty trimmed
    statement without ';' followed by a single final ';': nothing follows
    the first semicolon. *)
Theorem clean_sql_keeps_first_statement (raw : str) :
  ~ occurs_ignoring_case "unsupported" raw ->
  ((forall p, In p (split ";" (strip_labels (strip_fences (strip raw)))) ->
              strip p = "") ->
   _clean_sql raw = "")
  /\ (forall before p after,
      split ";" (strip_labels (strip_fences (strip raw))) = before ++ p :: after ->
      (forall q, In q before -> strip q = "") -> strip p <> "" ->
      _clean_sql raw = strip p ++ ";")
  /\ (_clean_sql raw <> "" ->
      exists stmt,
        _clean_sql raw = stmt ++ ";"
        /\ stmt <> "" /\ ~ In ";"%char stmt /\ strip stmt = stmt
        /\ split ";" (_clean_sql raw) = [stmt; ""])
  /\ (forall (B : Backend) question (st st' : state B) prompt w0 w sql,
      prompted B question st prompt w0 ->
      llm_predict B prompt w0 = (Ok raw, w) ->
      _generate_sql B question 5 st = (Ok sql, st') ->
      exists stmt,
        sql = stmt ++ ";" /\ stmt <> "" /\ ~ In ";"%char stmt /\ strip stmt = stmt).
Proof.
  intros Hraw. apply supported_not_mentioned in Hraw.
  rewrite (clean_sql_supported raw Hraw).
  split; [apply first_statement_none|].
  split; [intros before p after; apply first_statement_at|].
  split; [apply first_statement_shape|].
  intros B question st st' prompt w0 w sql Hp Hllm Hgen.
  rewrite (generate_sql_run B question st prompt raw w0 w Hp Hllm) in Hgen.
  injection Hgen as Hgate _.
  destruct (enforce_select_only_ok _ _ Hgate) as [-> Hsel].
  rewrite (clean_sql_supported raw Hraw) in *.
  destruct (first_statement_shape (strip_labels (strip_fences (strip raw))))
    as [stmt [E [Hne [Hsemi [Htrim _]]]]].
  - now apply select_is_nonempty.
  - now exists stmt.
Qed.

Lemma clean_sql_keeps_first_statement_witness :
  _clean_sql " ; SELECT a FROM t ; DROP TABLE t;" = "SELECT a FROM t;".
Proof.
  refine (proj1 (proj2 (clean_sql_keeps_first_statement
            " ; SELECT a FROM t ; DROP TABLE t;" _))
            [""] " SELECT a FROM t " [" DROP TABLE t"; ""] _ _ _).
  - intros H. apply mentions_unsupported_spec in H. vm_compute in H. discriminate.
  - reflexivity.
  - intros q [<- | []]. reflexivity.
  - discriminate.
Defined.

(** ** Fenced completions *)

Lemma mentions_unsupported_inside (a b c : str) :
  mentions_unsupported (a ++ b ++ c) = false -> mentions_unsupported b = false.
Proof.
  unfold mentions_unsupported. rewrite !upper_app. intros H.
  apply not_true_is_false. intros Hb. apply not_true_iff_false in H. apply H.
  apply (contains_spec N.eqb N.eqb_eq) in Hb. destruct Hb as [pre [post ->]].
  apply (contains_spec N.eqb N.eqb_eq).
  exists (upper a ++ pre), (post ++ upper c). now rewrite <- !app_assoc.
Qed.

(** C6, as amended: for a completion wrapped in a fenced code block
    whose language tag, if there is one, is made of ASCII letters and
    digits (the characters [[a-zA-Z0-9]] of the opening pattern), and
    without the "UNSUPPORTED" marker, removing the fences leaves exactly
    the trimmed content, so the sanitizer's result is that of the
    remaining steps on the content, and equals the result on the bare
    content whenever the content has no fence of its own.  The completion
    of scenario A is sanitized to "SELECT 1;". *)
Theorem fenced_completion_yields_content :
  (forall lead tag inner trail : str,
      forallb isspace lead = true -> forallb isspace trail = true ->
      forallb is_ascii_alnum tag = true ->
      ~ occurs_ignoring_case "unsupported" (fenced lead tag inner trail) ->
      strip_fences (strip (fenced lead tag inner trail)) = strip inner
      /\ _clean_sql (fenced lead tag inner trail)
         = first_statement (strip_labels (strip inner))
      /\ (strip_fences (strip inner) = strip inner ->
          _clean_sql (fenced lead tag inner trail) = _clean_sql inner))
  /\ _clean_sql ("```sql" ++ [LF] ++ "SELECT 1;" ++ [LF] ++ "```") = "SELECT 1;".
Proof.
  split; [|reflexivity].
  intros lead tag inner trail Hl Ht Htag Hraw.
  apply supported_not_mentioned in Hraw.
  pose proof (strip_fences_fenced lead tag inner trail Hl Ht Htag) as Hf.
  split; [exact Hf|].
  rewrite (clean_sql_supported _ Hraw), Hf. split; [reflexivity|].
  intros Hin. rewrite clean_sql_supported, Hin; [reflexivity|].
  apply (mentions_unsupported_inside (lead ++ "```" ++ tag ++ [LF]) inner
           ([LF] ++ "```" ++ trail)).
  unfold fenced in Hraw. now rewrite <- !app_assoc.
Qed.

Lemma fenced_completion_yields_content_witness :
  _clean_sql (fenced " " "sql" "SELECT period, tons FROM volumes; -- done" [LF])
  = _clean_sql "SELECT period, tons FROM volumes; -- done"
  /\ _clean_sql (fenced "" "" "SELECT 1;" "") = "SELECT 1;".
Proof.
  assert (Hno : forall raw : str,
             mentions_unsupported raw = false ->
             ~ occurs_ignoring_case "unsupported" raw).
  { intros raw H Hocc. apply mentions_unsupported_spec in Hocc. congruence. }
  split.
  - apply (proj1 fenced_completion_yields_content " " "sql"
             "SELECT period, tons FROM volumes; -- done" [LF]);
      try reflexivity.
    apply Hno. reflexivity.
  - apply (proj1 (proj2 (proj1 fenced_completion_yields_content "" "" "SELECT 1;" ""
                           eq_refl eq_refl eq_refl
                           (Hno (fenced "" "" "SELECT 1;" "") eq_refl)))).
Defined.

(** C6, as stated, fails for a language tag with a character outside
    [[a-zA-Z0-9]]: the opening pattern stops inside the tag "t-sql", and
    the rest of the tag stays in front of the content. *)
Lemma fenced_tag_outside_pattern_is_kept :
  let raw := fenced "" "t-sql" "SELECT 1;" "" in
  ~ occurs_ignoring_case "unsupported" raw
  /\ strip_fences (strip raw) = "-sql" ++ [LF] ++ "SELECT 1;"
  /\ _clean_sql raw = "-sql" ++ [LF] ++ "SELECT 1;"
  /\ _clean_sql raw <> _clean_sql "SELECT 1;".
Proof.
  intros raw. split; [|split; [|split]].
  - intros H. apply mentions_unsupported_spec in H. vm_compute in H. discriminate.
  - reflexivity.
  - reflexivity.
  - vm_compute. discriminate.
Qed.

(** * Further properties of the engine *)

(** ** The safety gate and the limit enforcer together *)

(** Upper-casing a character whose lower-case form is a letter a-z. *)
Lemma upper_char_letter (c : ascii) :
  between 97 122 (lower c) = true -> upper_char c = [(ord (lower c) - 32)%N].
Proof. each_char c. Qed.

(** A capital letter A-Z at the head of an upper-cased text comes from the
    letter itself, in either case, or is the "S" of a sharp s. *)
Lemma upper_char_pull (c : ascii) (x : N) (U V : list N) :
  upper_char c ++ U = x :: V -> ((65 <=? x) && (x <=? 90))%N = true ->
  (lower c = ascii_of_N (x + 32) /\ U = V)
  \/ (x = 83%N /\ exists V', V = 83%N :: V').
Proof.
  intros H Hx.
  assert (E : x = hd 0%N (upper_char c ++ U)) by now rewrite H.
  destruct c as [[] [] [] [] [] [] [] []]; cbn in H, E; subst x;
    first [ left; split; [reflexivity | now injection H]
          | right; split; [reflexivity|]; injection H as <-; now eexists
          | exfalso; cbn in Hx; discriminate ].
Qed.

Ltac pull_letter s c Hc H :=
  destruct s as [|c s]; [discriminate H|];
  cbn [upper flat_map] in H;
  apply upper_char_pull in H;
  [destruct H as [[Hc H] | [? [? ?]]]; [|discriminate] | reflexivity].

(** The keyword read through [lower] and through [upper]. *)
Lemma select_keyword_upper (kw : str) :
  map lower kw = "select" <-> length kw = 6 /\ upper kw = ords "SELECT".
Proof.
  split.
  - intros H.
    destruct kw as [|c1 [|c2 [|c3 [|c4 [|c5 [|c6 [|c7 kw]]]]]]]; try discriminate.
    injection H as H1 H2 H3 H4 H5 H6. split; [reflexivity|].
    cbn [upper flat_map].
    rewrite (upper_char_letter c1), (upper_char_letter c2), (upper_char_letter c3),
      (upper_char_letter c4), (upper_char_letter c5), (upper_char_letter c6), H1,
      H2, H3, H4, H5, H6;
      first [ reflexivity
            | rewrite H1; reflexivity | rewrite H2; reflexivity
            | rewrite H3; reflexivity | rewrite H4; reflexivity
            | rewrite H5; reflexivity | rewrite H6; reflexivity ].
  - intros [_ H]. cbn in H.
    pull_letter kw c1 H1 H. pull_letter kw c2 H2 H. pull_letter kw c3 H3 H.
    pull_letter kw c4 H4 H. pull_letter kw c5 H5 H. pull_letter kw c6 H6 H.
    destruct kw as [|c7 kw].
    + cbn [map]. rewrite H1, H2, H3, H4, H5, H6. reflexivity.
    + exfalso. cbn [upper flat_map] in H.
      destruct (upper_char_shape c7) as [[u E] | E]; rewrite E in H; discriminate.
Qed.

Lemma reads_select_spec (sql : str) : reads_select sql <-> starts_with_select sql.
Proof.
  split; intros [ws [kw [rest [E [Hws H]]]]]; exists ws, kw, rest.
  - destruct H as [Hlen [Hkw Hrest]].
    repeat split; trivial. apply select_keyword_upper. now split.
  - destruct H as [Hkw Hrest]. apply select_keyword_upper in Hkw.
    destruct Hkw as [Hlen Hkw]. repeat split; trivial.
Qed.

(** X1: the safety gate accepts exactly the texts made of optional
    whitespace, six characters that upper-case to "SELECT", and then
    either the end of the text or a character that is not a word
    character; it returns an accepted text as it is and raises on every
    other text. *)
Theorem safety_gate_accepts_exactly_select (sql : str) :
  (reads_select sql <-> _enforce_select_only sql = Ok sql)
  /\ (~ reads_select sql <->
      _enforce_select_only sql
      = Raise (ValueError "Only SELECT statements are allowed.")).
Proof.
  rewrite reads_select_spec.
  destruct (enforce_select_only_spec sql) as [Hyes Hno].
  split; split; trivial.
  - intros H. now apply enforce_select_only_ok in H.
  - intros H Hsel. rewrite (Hyes Hsel) in H. discriminate.
Qed.

Lemma safety_gate_accepts_exactly_select_witness :
  _enforce_select_only "  Select(1)" = Ok "  Select(1)".
Proof.
  apply (proj1 (proj1 (safety_gate_accepts_exactly_select "  Select(1)"))).
  exists "  ", "Select", "(1)". repeat split.
Defined.

(** X2: with a positive limit the result of the limit enforcer always
    carries a [LIMIT <digits>] clause, either the one the statement had or
    the one appended. *)
Theorem apply_limit_bounds_result (sql : str) (p : positive) :
  has_limit_clause (_apply_limit sql (Some (Z.pos p))).
Proof.
  destruct (Re.found (Re.search HAS_LIMIT sql Re.IGNORECASE)) eqn:H.
  - apply has_limit_spec in H. now rewrite (apply_limit_present sql _ H).
  - assert (Hno : ~ has_limit_clause sql)
      by (rewrite <- has_limit_spec; congruence).
    rewrite (apply_limit_absent sql (Z.pos p)) by (trivial; discriminate).
    apply appended_limit_is_found.
Qed.

Lemma isword_not_trailing (c : ascii) :
  isword c = true ->
  isspace c = false /\ existsb (Ascii.eqb c) ";" = false.
Proof. each_char c; intros _; split; reflexivity. Qed.

(** Dropping trailing characters stops at a character that stays. *)
Lemma rdrop_keep (p : ascii -> bool) (a b : str) (c : ascii) :
  p c = false ->
  rev (dropwhile p (rev (a ++ c :: b)))
  = a ++ c :: rev (dropwhile p (rev b)).
Proof.
  intros Hc. rewrite rev_app_distr. simpl rev. rewrite <- app_assoc. simpl app.
  rewrite dropwhile_app_stop by exact Hc.
  rewrite rev_app_distr. simpl rev. rewrite rev_involutive.
  now rewrite <- app_assoc.
Qed.

Lemma apply_limit_select (sql : str) (limit : option Z) :
  starts_with_select sql -> starts_with_select (_apply_limit sql limit).
Proof.
  intros Hsel. unfold _apply_limit.
  destruct (negb (limit_given limit)); [exact Hsel|].
  destruct (Re.found (Re.search HAS_LIMIT sql Re.IGNORECASE)); [exact Hsel|].
  destruct Hsel as [ws [kw [rest [-> [Hws [Hkw Hrest]]]]]].
  assert (Hword : forallb isword kw = true)
    by now apply keyword_isword with ("select" : str).
  assert (Hne : kw <> []) by (intros ->; discriminate).
  destruct (exists_last Hne) as [init [k Ek]]. subst kw.
  rewrite forallb_app in Hword. apply andb_true_iff in Hword.
  destruct Hword as [_ Hk]. simpl in Hk. rewrite andb_true_r in Hk.
  destruct (isword_not_trailing k Hk) as [Hsp Hsemi].
  unfold rstrip_chars, rstrip.
  replace (ws ++ (init ++ [k]) ++ rest) with ((ws ++ init) ++ k :: rest)
    by (now rewrite <- !app_assoc).
  rewrite (rdrop_keep isspace _ _ k Hsp).
  rewrite (rdrop_keep (fun c => existsb (Ascii.eqb c) ";") _ _ k Hsemi).
  set (kept := rev (dropwhile (fun c => existsb (Ascii.eqb c) ";")
                      (rev (rev (dropwhile isspace (rev rest)))))).
  exists ws, (init ++ [k]),
    (kept ++ " LIMIT " ++ str_of_Z (int_of_limit limit) ++ ";").
  split; [now rewrite <- !app_assoc|].
  split; [exact Hws|]. split; [exact Hkw|].
  destruct kept as [|x kept'] eqn:Ekept; [reflexivity|].
  assert (Hx : exists t, rest = x :: t).
  { destruct (rdrop_split isspace rest) as [t1 [E1 _]].
    destruct (rdrop_split (fun c => existsb (Ascii.eqb c) ";")
                (rev (dropwhile isspace (rev rest)))) as [t2 [E2 _]].
    fold kept in E2. rewrite Ekept in E2. rewrite E2 in E1.
    simpl in E1. eexists. exact E1. }
  destruct Hx as [t ->]. exact Hrest.
Qed.

(** X3: the limit enforcer keeps an accepted statement acceptable: what
    it returns for a statement that starts with [select] still starts with
    [select], so the executed text is one the safety gate lets through. *)
Theorem apply_limit_keeps_select (sql : str) (limit : option Z) :
  starts_with_select sql -> starts_with_select (_apply_limit sql limit).
Proof. apply apply_limit_select. Qed.

Lemma apply_limit_keeps_select_witness :
  starts_with_select (_apply_limit "select tons from volumes ;" (Some 5%Z)).
Proof.
  apply (apply_limit_keeps_select "select tons from volumes ;" (Some 5%Z)).
  apply select_only_spec. reflexivity.
Defined.

(** ** Every run of the orchestrator *)

Lemma summarize_table_run (B : Backend) (question : str) (columns : list str)
  (rows : list (list (value B))) (st : state B) :
  exists answer w evs,
    _summarize_table B question columns rows st = (Ok answer, (w, snd st ++ evs))
    /\ (evs = [] \/ evs = [LlmPredict (summary_prompt B question columns rows)]).
Proof.
  destruct columns as [|c columns]; [|destruct rows as [|r rows]].
  - exists "There was no data to summarize.", (fst st), [].
    rewrite summarize_table_empty by now left.
    rewrite app_nil_r. destruct st. auto.
  - exists "There was no data to summarize.", (fst st), [].
    rewrite summarize_table_empty by now right.
    rewrite app_nil_r. destruct st. auto.
  - rewrite summarize_table_prompt by discriminate.
    destruct (llm_predict B _ (fst st)) as [[response|e] w]; cbn [fst snd];
      eexists _, w, _; split; try reflexivity; now right.
Qed.

Section Runs.

Context (B : Backend).
Variables (question : str) (return_table : bool) (limit : option Z).
Variable st : state B.

Lemma process_question_schema_raises (e : exn) (w0 : World B) :
  get_table_info B (fst st) = (Raise e, w0) ->
  process_question B question return_table limit st
  = (failure_response (value B) (exn_str e), (w0, snd st ++ [GetTableInfo])).
Proof.
  intros H. unfold process_question, _generate_sql, bind, DB_get_table_info.
  now rewrite H.
Qed.

Lemma process_question_template_raises (schema : str) (w0 : World B) (e : exn) :
  get_table_info B (fst st) = (Ok schema, w0) ->
  generation_prompt B question schema = Raise e ->
  process_question B question return_table limit st
  = (failure_response (value B) (exn_str e), (w0, snd st ++ [GetTableInfo])).
Proof.
  intros H Hfmt. unfold generation_prompt in Hfmt.
  unfold process_question, _generate_sql, bind, DB_get_table_info, lift.
  now rewrite H, Hfmt.
Qed.

Lemma process_question_generation_raises (prompt : str) (w0 w : World B) (e : exn) :
  prompted B question st prompt w0 ->
  llm_predict B prompt w0 = (Raise e, w) ->
  process_question B question return_table limit st
  = (failure_response (value B) (exn_str e),
     (w, snd st ++ [GetTableInfo; LlmPredict prompt])).
Proof.
  intros Hp H. unfold process_question, bind.
  now rewrite (generate_sql_prompted B question st prompt w0 Hp), H.
Qed.

Lemma process_question_execution_raises (prompt raw : str) (w0 w1 w2 : World B)
  (e : exn) :
  prompted B question st prompt w0 ->
  llm_predict B prompt w0 = (Ok raw, w1) ->
  starts_with_select (_clean_sql raw) ->
  exec_driver_sql B (_apply_limit (_clean_sql raw) limit) w1 = (Raise e, w2) ->
  process_question B question return_table limit st
  = (failure_response (value B) (exn_str e),
     (w2, (snd st ++ [GetTableInfo; LlmPredict prompt])
          ++ [DbExecute (_apply_limit (_clean_sql raw) limit)])).
Proof.
  intros Hp Hllm Hsel Hexec. unfold process_question, bind.
  rewrite (generate_sql_run B question st prompt raw w0 w1 Hp Hllm).
  rewrite (proj1 (enforce_select_only_spec _) Hsel).
  destruct (list_eq_dec N.eq_dec (upper (strip (_clean_sql raw))) (ords "UNSUPPORTED"))
    as [E|_]; [now apply select_is_not_sentinel in E|].
  rewrite execute_sql_nonempty
    by (apply apply_limit_nonempty; now apply select_is_nonempty).
  cbn [fst snd]. now rewrite Hexec.
Qed.

(** The ways a request can go: it fails at the schema read or the
    template, before any model call; it fails at the model call or at the
    safety gate; it fails at the execution; or it succeeds. *)
Lemma process_question_run :
  (exists detail w,
      process_question B question return_table limit st
      = (failure_response (value B) detail, (w, snd st ++ [GetTableInfo])))
  \/ (exists prompt detail w,
         process_question B question return_table limit st
         = (failure_response (value B) detail,
            (w, snd st ++ [GetTableInfo; LlmPredict prompt])))
  \/ (exists prompt sql detail w,
         starts_with_select sql
         /\ process_question B question return_table limit st
            = (failure_response (value B) detail,
               (w, (snd st ++ [GetTableInfo; LlmPredict prompt])
                   ++ [DbExecute sql])))
  \/ (exists prompt sql answer columns rows w evs,
         starts_with_select sql
         /\ process_question B question return_table limit st
            = ({| Model.sql := Some sql;
                  Model.answer := answer;
                  Model.error := None;
                  Model.columns := if return_table then Some columns else None;
                  Model.rows := if return_table then Some rows else None |},
               (w, ((snd st ++ [GetTableInfo; LlmPredict prompt])
                    ++ [DbExecute sql]) ++ evs))
         /\ (evs = [] \/ return_table = true /\ exists p, evs = [LlmPredict p])).
Proof.
  destruct (get_table_info B (fst st)) as [[schema|e] w0] eqn:Hinfo.
  2:{ left. exists (exn_str e), w0. now apply process_question_schema_raises. }
  destruct (generation_prompt B question schema) as [prompt|e] eqn:Hfmt.
  2:{ left. exists (exn_str e), w0.
      now apply process_question_template_raises with schema. }
  assert (Hp : prompted B question st prompt w0) by (exists schema; now split).
  right.
  destruct (llm_predict B prompt w0) as [[raw|e] w1] eqn:Hllm.
  2:{ left. exists prompt, (exn_str e), w1.
      now apply process_question_generation_raises with w0. }
  destruct (_enforce_select_only (_clean_sql raw)) as [sql0|e] eqn:Hgate.
  2:{ left. exists prompt, "Only SELECT statements are allowed.", w1.
      apply process_question_rejected with raw w0; trivial.
      destruct (enforce_select_only_spec (_clean_sql raw)) as [Hyes Hno].
      apply Hno. intros Hsel.
      rewrite (Hyes Hsel) in Hgate. discriminate. }
  destruct (enforce_select_only_ok _ _ Hgate) as [_ Hsel].
  pose proof (apply_limit_select _ limit Hsel) as Hsel'.
  right.
  destruct (exec_driver_sql B (_apply_limit (_clean_sql raw) limit) w1)
    as [[r|e] w2] eqn:Hexec.
  2:{ left. exists prompt, (_apply_limit (_clean_sql raw) limit), (exn_str e), w2.
      split; [exact Hsel'|].
      now apply process_question_execution_raises with w0 w1. }
  right. exists prompt, (_apply_limit (_clean_sql raw) limit).
  rewrite (process_question_executed B question limit st prompt raw w0 w1 w2 r
             Hp Hllm Hsel Hexec return_table).
  cbv zeta.
  destruct return_table.
  - destruct (summarize_table_run B question (fst (table_of r)) (snd (table_of r))
                (w2, (snd st ++ [GetTableInfo; LlmPredict prompt])
                     ++ [DbExecute (_apply_limit (_clean_sql raw) limit)]))
      as [answer [w3 [evs [E Hevs]]]].
    rewrite E. cbn [snd].
    exists answer, (fst (table_of r)), (snd (table_of r)), w3, evs.
    repeat split; trivial.
    destruct Hevs as [-> | ->]; [now left | right; split; trivial; now eexists].
  - exists (_format_rows_for_answer (str_value B) (snd (table_of r))),
      (fst (table_of r)), (snd (table_of r)), w2, [].
    rewrite app_nil_r. repeat split; trivial. now left.
Qed.

End Runs.

(** X4: whatever the model and the database do, the response of
    [process_question] has one of two shapes: a success, with a null error,
    the SQL text of a statement that starts with [select], and the table
    exactly when [return_table] is set; or the uniform failure, with null
    SQL, the generic message, an error text and no table. *)
Theorem process_question_response_shape (B : Backend) (question : str)
  (return_table : bool) (limit : option Z) (st : state B) :
  let response := fst (process_question B question return_table limit st) in
  (exists sql,
      Model.sql response = Some sql
      /\ starts_with_select sql
      /\ Model.error response = None
      /\ (Model.columns response <> None <-> return_table = true)
      /\ (Model.rows response <> None <-> return_table = true))
  \/ (exists detail,
         response
         = {| Model.sql := None;
              Model.answer := "An error occurred while processing your question.";
              Model.error := Some detail;
              Model.columns := None;
              Model.rows := None |}).
Proof.
  destruct (process_question_run B question return_table limit st)
    as [[detail [w E]] | [[prompt [detail [w E]]]
        | [[prompt [sql [detail [w [_ E]]]]]
        | [prompt [sql [answer [columns [rows [w [evs [Hsel [E _]]]]]]]]]]]];
    rewrite E; cbn [fst].
  - right. now exists detail.
  - right. now exists detail.
  - right. now exists detail.
  - left. exists sql. cbn. repeat split; trivial;
      destruct return_table; intros; congruence.
Qed.


(** X6: when generation fails before there is a completion, the request
    ends there with the uniform failure carrying [str(exc)], and no
    statement is handed to the executor.  If the schema read raises, or
    the prompt template does, the schema read is the only call recorded:
    the model is not called.  If the model call raises, the schema read
    and that call are the only calls recorded. *)
Theorem generation_failure_is_reported (B : Backend) (question : str)
  (return_table : bool) (limit : option Z) (st : state B) (e : exn) :
  (forall w0,
      get_table_info B (fst st) = (Raise e, w0) ->
      process_question B question return_table limit st
      = ({| Model.sql := None;
            Model.answer := "An error occurred while processing your question.";
            Model.error := Some (exn_str e);
            Model.columns := None;
            Model.rows := None |},
         (w0, snd st ++ [GetTableInfo])))
  /\ (forall schema w0,
         get_table_info B (fst st) = (Ok schema, w0) ->
         generation_prompt B question schema = Raise e ->
         process_question B question return_table limit st
         = ({| Model.sql := None;
               Model.answer := "An error occurred while processing your question.";
               Model.error := Some (exn_str e);
               Model.columns := None;
               Model.rows := None |},
            (w0, snd st ++ [GetTableInfo])))
  /\ (forall prompt w0 w,
         prompted B question st prompt w0 ->
         llm_predict B prompt w0 = (Raise e, w) ->
         process_question B question return_table limit st
         = ({| Model.sql := None;
               Model.answer := "An error occurred while processing your question.";
               Model.error := Some (exn_str e);
               Model.columns := None;
               Model.rows := None |},
            (w, snd st ++ [GetTableInfo; LlmPredict prompt]))).
Proof.
  split; [|split].
  - intros w0. apply process_question_schema_raises.
  - intros schema w0. apply process_question_template_raises.
  - intros prompt w0 w. apply process_question_generation_raises.
Qed.

Lemma generation_failure_is_reported_witness :
  (let B := scripted_with (Raise (Exn "OperationalError" "unable to open database file"))
                          (fun _ => Ok "SELECT 1;") (fun _ => Ok None) in
   process_question B "total tons?" true None (tt, [])
   = (failure_response Z "unable to open database file", (tt, [GetTableInfo])))
  /\ (let B := scripted (fun _ => Raise (Exn "RateLimitError" "429 too many requests"))
                        (fun _ => Ok None) in
      process_question B "total tons?" true None (tt, [])
      = (failure_response Z "429 too many requests",
         (tt, [GetTableInfo; LlmPredict (scripted_prompt "total tons?")]))).
Proof.
  split; intros B.
  - apply (proj1 (generation_failure_is_reported B "total tons?" true None (tt, [])
                    (Exn "OperationalError" "unable to open database file")) tt).
    reflexivity.
  - apply (proj2 (proj2 (generation_failure_is_reported B "total tons?" true None
                           (tt, []) (Exn "RateLimitError" "429 too many requests")))
             (scripted_prompt "total tons?") tt tt).
    + exists scripted_schema. split; reflexivity.
    + reflexivity.
Defined.

(** X7: when the database raises on an accepted statement, the response
    is the uniform failure carrying [str(exc)]; the SQL text is withheld
    although the statement was sent to the database, and no further model
    call is made, in either mode. *)
Theorem execution_failure_is_reported (B : Backend) (question : str)
  (return_table : bool) (limit : option Z) (st : state B) (prompt raw : str)
  (w0 w1 w2 : World B) (e : exn) :
  prompted B question st prompt w0 ->
  llm_predict B prompt w0 = (Ok raw, w1) ->
  starts_with_select (_clean_sql raw) ->
  exec_driver_sql B (_apply_limit (_clean_sql raw) limit) w1 = (Raise e, w2) ->
  process_question B question return_table limit st
  = ({| Model.sql := None;
        Model.answer := "An error occurred while processing your question.";
        Model.error := Some (exn_str e);
        Model.columns := None;
        Model.rows := None |},
     (w2, (snd st ++ [GetTableInfo; LlmPredict prompt])
          ++ [DbExecute (_apply_limit (_clean_sql raw) limit)])).
Proof. apply process_question_execution_raises. Qed.

Lemma execution_failure_is_reported_witness :
  let B := scripted (fun _ => Ok "SELECT nope FROM volumes")
                    (fun _ => Raise (Exn "OperationalError" "no such column: nope")) in
  process_question B "nope?" true (Some 3%Z) (tt, [])
  = (failure_response Z "no such column: nope",
     (tt, [GetTableInfo; LlmPredict (scripted_prompt "nope?");
           DbExecute "SELECT nope FROM volumes LIMIT 3;"])).
Proof.
  intros B.
  apply (execution_failure_is_reported B "nope?" true (Some 3%Z) (tt, [])
           (scripted_prompt "nope?") "SELECT nope FROM volumes" tt tt tt
           (Exn "OperationalError" "no such column: nope")).
  - exists scripted_schema. split; reflexivity.
  - reflexivity.
  - apply select_only_spec. reflexivity.
  - reflexivity.
Defined.

(** X8: a narrative request whose statement yields no table (the result
    returns no rows, or has no columns, or has no rows) succeeds with the
    fixed text "There was no data to summarize.", returns the empty table
    as it is, and makes no second model call. *)
Theorem empty_result_is_not_summarized (B : Backend) (question : str)
  (limit : option Z) (st : state B) (prompt raw : str) (w0 w1 w2 : World B)
  (r : option (list str * list (list (value B)))) :
  prompted B question st prompt w0 ->
  llm_predict B prompt w0 = (Ok raw, w1) ->
  starts_with_select (_clean_sql raw) ->
  exec_driver_sql B (_apply_limit (_clean_sql raw) limit) w1 = (Ok r, w2) ->
  fst (table_of r) = [] \/ snd (table_of r) = [] ->
  process_question B question true limit st
  = ({| Model.sql := Some (_apply_limit (_clean_sql raw) limit);
        Model.answer := "There was no data to summarize.";
        Model.error := None;
        Model.columns := Some (fst (table_of r));
        Model.rows := Some (snd (table_of r)) |},
     (w2, (snd st ++ [GetTableInfo; LlmPredict prompt])
          ++ [DbExecute (_apply_limit (_clean_sql raw) limit)])).
Proof.
  intros Hp Hllm Hsel Hexec Hempty.
  rewrite (process_question_executed B question limit st prompt raw w0 w1 w2 r
             Hp Hllm Hsel Hexec true).
  cbv zeta. now rewrite summarize_table_empty.
Qed.

Lemma empty_result_is_not_summarized_witness :
  let B := scripted (fun _ => Ok "select tons from volumes where 1 = 0")
                    (fun _ => Ok (Some (["tons"], []))) in
  process_question B "tons?" true None (tt, [])
  = ({| Model.sql := Some "select tons from volumes where 1 = 0;";
        Model.answer := "There was no data to summarize.";
        Model.error := None;
        Model.columns := Some ["tons"];
        Model.rows := Some [] |},
     (tt, [GetTableInfo; LlmPredict (scripted_prompt "tons?");
           DbExecute "select tons from volumes where 1 = 0;"])).
Proof.
  intros B.
  apply (empty_result_is_not_summarized B "tons?" None (tt, [])
           (scripted_prompt "tons?") "select tons from volumes where 1 = 0"
           tt tt tt (Some (["tons"], []))).
  - exists scripted_schema. split; reflexivity.
  - reflexivity.
  - apply select_only_spec. reflexivity.
  - reflexivity.
  - now right.
Defined.

Lemma summary_prompt_cap (B : Backend) (question : str) (columns : list str)
  (rows : list (list (value B))) :
  summary_prompt B question columns rows
  = summary_prompt B question columns (firstn 30 rows).
Proof. unfold summary_prompt. now rewrite firstn_firstn. Qed.

(** X9: a narrative request with a non-empty table asks the model with a
    prompt built from the question, the columns and the first 30 rows
    only, answers with the model's reply trimmed, and still returns every
    row of the table. *)
Theorem narrative_uses_first_thirty_rows (B : Backend) (question : str)
  (limit : option Z) (st : state B) (prompt raw : str) (w0 w1 w2 w3 : World B)
  (columns : list str) (rows : list (list (value B))) (reply : str) :
  prompted B question st prompt w0 ->
  llm_predict B prompt w0 = (Ok raw, w1) ->
  starts_with_select (_clean_sql raw) ->
  exec_driver_sql B (_apply_limit (_clean_sql raw) limit) w1
  = (Ok (Some (columns, rows)), w2) ->
  columns <> [] -> rows <> [] ->
  llm_predict B (summary_prompt B question columns (firstn 30 rows)) w2
  = (Ok reply, w3) ->
  process_question B question true limit st
  = ({| Model.sql := Some (_apply_limit (_clean_sql raw) limit);
        Model.answer := strip reply;
        Model.error := None;
        Model.columns := Some columns;
        Model.rows := Some rows |},
     (w3, ((snd st ++ [GetTableInfo; LlmPredict prompt])
           ++ [DbExecute (_apply_limit (_clean_sql raw) limit)])
          ++ [LlmPredict (summary_prompt B question columns (firstn 30 rows))])).
Proof.
  intros Hp Hllm Hsel Hexec Hc Hr Hsum.
  rewrite (process_question_executed B question limit st prompt raw w0 w1 w2
             (Some (columns, rows)) Hp Hllm Hsel Hexec true).
  cbv zeta. cbn [table_of fst snd].
  rewrite summarize_table_prompt by assumption. cbn [fst snd].
  rewrite (summary_prompt_cap B question columns rows), Hsum. reflexivity.
Qed.

Lemma narrative_uses_first_thirty_rows_witness :
  let rows := map (fun n => [Z.of_nat n]) (seq 1 40) in
  let B :=
    scripted (fun prompt => if startswith Ascii.eqb "The user asked" prompt
                            then Ok "  Forty rows, rising steadily.  "
                            else Ok "SELECT tons FROM volumes")
             (fun _ => Ok (Some (["tons"], rows))) in
  Model.answer (fst (process_question B "tons?" true None (tt, [])))
  = "Forty rows, rising steadily."
  /\ Model.rows (fst (process_question B "tons?" true None (tt, []))) = Some rows.
Proof.
  intros rows B.
  rewrite (narrative_uses_first_thirty_rows B "tons?" None (tt, [])
             (scripted_prompt "tons?") "SELECT tons FROM volumes" tt tt tt tt
             ["tons"] rows "  Forty rows, rising steadily.  ").
  - split; reflexivity.
  - exists scripted_schema. split; reflexivity.
  - reflexivity.
  - apply select_only_spec. reflexivity.
  - reflexivity.
  - discriminate.
  - discriminate.
  - reflexivity.
Defined.

(** ** The sanitizer on clean text and on labels *)

Lemma dropwhile_length {A : Type} (p : A -> bool) (l : list A) :
  length (dropwhile p l) <= length l.
Proof.
  induction l as [|x l IH]; simpl; [lia|]. destruct (p x); simpl; lia.
Qed.

(** A trimmed text does not start with whitespace. *)
Lemma strip_fixed_head (s : str) (c : ascii) (t : str) :
  strip s = s -> s = c :: t -> isspace c = false.
Proof.
  intros Hs ->. destruct (isspace c) eqn:Hc; [exfalso | reflexivity].
  apply (f_equal (@length ascii)) in Hs.
  unfold strip, rstrip, lstrip in Hs. rewrite length_rev in Hs.
  pose proof (dropwhile_length isspace (rev (dropwhile isspace (c :: t)))) as H1.
  rewrite length_rev in H1. simpl in H1, Hs. rewrite Hc in H1, Hs.
  pose proof (dropwhile_length isspace t) as H2. lia.
Qed.

(** Text that ends with neither a backtick nor a newline has no closing
    fence to remove. *)
Lemma fence_close_absent_here (prev : option ascii) (q : str) (c : ascii) :
  c <> "`"%char -> c <> LF ->
  Re.lit Re.NoFlags "```" (Re.match_here Re.NoFlags [Re.Eos]) prev (q ++ [c]) = None.
Proof.
  intros H1 H2.
  destruct q as [|x1 [|x2 [|x3 [|x4 q]]]]; cbn;
    repeat match goal with
           | |- context [Ascii.eqb ?x ?y] =>
               destruct (Ascii.eqb_spec x y); try subst; try congruence
           end; try reflexivity.
  all: destruct (q ++ [c]) eqn:E; [|reflexivity].
  all: destruct q; discriminate.
Qed.

Lemma suffix_of_snoc (u s' y : str) (c : ascii) :
  u ++ s' = y ++ [c] -> s' = [] \/ exists q, s' = q ++ [c].
Proof.
  destruct s' as [|x s' _] using rev_ind; [now left|].
  intros E. right. rewrite app_assoc in E.
  apply app_inj_tail in E. destruct E as [_ ->]. now exists s'.
Qed.

Lemma match_fence_close_absent (prev : option ascii) (y : str) (c : ascii) :
  c <> "`"%char -> c <> LF ->
  Re.match_here Re.NoFlags FENCE_CLOSE prev (y ++ [c]) = None.
Proof.
  intros H1 H2. cbn [Re.match_here FENCE_CLOSE].
  apply many_none. intros u s' E _.
  destruct (suffix_of_snoc u s' y c (eq_sym E)) as [-> | [q ->]].
  - reflexivity.
  - now apply fence_close_absent_here.
Qed.

Lemma match_fence_close_nil (prev : option ascii) :
  Re.match_here Re.NoFlags FENCE_CLOSE prev [] = None.
Proof. reflexivity. Qed.

Lemma sub_fence_close_absent (y : str) (c : ascii) :
  c <> "`"%char -> c <> LF ->
  Re.sub FENCE_CLOSE "" (y ++ [c]) Re.NoFlags = y ++ [c].
Proof.
  intros H1 H2. unfold Re.sub. generalize (@None ascii) as prev.
  induction y as [|x y IH]; intros prev.
  - cbn [app]. rewrite sub_from_here.
    pose proof (match_fence_close_absent prev [] c H1 H2) as H.
    cbn [app] in H. rewrite H. reflexivity.
  - cbn [app]. rewrite sub_from_here.
    change (x :: y ++ [c]) with ((x :: y) ++ [c]).
    rewrite (match_fence_close_absent prev (x :: y) c H1 H2).
    cbn [app]. now rewrite IH.
Qed.

Lemma lower_is_s (k : ascii) :
  lower k = "s"%char -> isspace k = false /\ k <> "`"%char.
Proof. each_char k; intros _; (split; [reflexivity | discriminate]). Qed.

(** A statement that opens with the keyword has no wrapper to remove. *)
Lemma select_has_no_wrapper (kw rest : str) :
  map lower kw = "select" ->
  Re.match_ FENCE_OPEN (kw ++ rest) Re.NoFlags = None
  /\ Re.match_ SQL_LINE (kw ++ rest) Re.IGNORECASE = None
  /\ Re.match_ SQL_LABEL (kw ++ rest) Re.IGNORECASE = None.
Proof.
  intros Hkw.
  destruct kw as [|k1 [|k2 kw]]; try discriminate.
  simpl in Hkw. injection Hkw as H1 H2 _.
  destruct (lower_is_s k1 H1) as [Hsp Hbt].
  unfold Re.match_. cbn. rewrite Hsp. cbn. rewrite H1, H2. cbn.
  apply Ascii.eqb_neq in Hbt. rewrite Hbt. auto.
Qed.

(** X10: sanitizing is idempotent on sanitized statements: a text
    [stmt;] whose statement is trimmed, holds no ';', starts with [select]
    and does not mention the marker comes back from [_clean_sql]
    unchanged. *)
Theorem clean_sql_fixes_sanitized_select (stmt : str) :
  strip stmt = stmt -> ~ In ";"%char stmt ->
  starts_with_select (stmt ++ ";") ->
  ~ occurs_ignoring_case "unsupported" (stmt ++ ";") ->
  _clean_sql (stmt ++ ";") = stmt ++ ";".
Proof.
  intros Htrim Hsemi Hsel Hraw.
  assert (Hshape : exists kw rest, stmt ++ ";" = kw ++ rest
                                   /\ map lower kw = "select"
                                   /\ exists k t, stmt = k :: t /\ isspace k = false).
  { destruct Hsel as [ws [kw [rest [E [Hws [Hkw _]]]]]].
    destruct stmt as [|k t].
    - destruct ws as [|x ws].
      + destruct kw as [|x kw]; [discriminate|].
        simpl in E. injection E as <- _. cbn in Hkw. discriminate.
      + simpl in E, Hws. injection E as <- _. discriminate.
    - pose proof (strip_fixed_head _ k t Htrim eq_refl) as Hk.
      destruct ws as [|x ws].
      + exists kw, rest. repeat split; trivial. now exists k, t.
      + simpl in E, Hws. injection E as <- _. rewrite Hk in Hws. discriminate. }
  destruct Hshape as [kw [rest [E [Hkw [k [t [-> Hk]]]]]]].
  destruct (select_has_no_wrapper kw rest Hkw) as [Hopen [Hline Hlabel]].
  assert (Hstrip : strip ((k :: t) ++ ";") = (k :: t) ++ ";").
  { apply (strip_framed [] t [] k ";"%char); trivial. }
  rewrite clean_sql_supported by now apply supported_not_mentioned.
  rewrite Hstrip. unfold strip_fences, strip_labels.
  unfold FENCE_OPEN at 1. rewrite sub_anchored. fold FENCE_OPEN.
  rewrite E at 1. rewrite Hopen.
  rewrite sub_fence_close_absent by discriminate.
  unfold SQL_LINE at 1. rewrite sub_anchored. fold SQL_LINE.
  rewrite E at 1. rewrite Hline.
  unfold SQL_LABEL at 1. rewrite sub_anchored. fold SQL_LABEL.
  rewrite E at 1. rewrite Hlabel.
  unfold first_statement. rewrite split_at_sep by exact Hsemi.
  cbn [split map]. rewrite Htrim. reflexivity.
Qed.

Lemma clean_sql_fixes_sanitized_select_witness :
  _clean_sql "SELECT period, tons FROM volumes;"
  = "SELECT period, tons FROM volumes;".
Proof.
  apply (clean_sql_fixes_sanitized_select "SELECT period, tons FROM volumes").
  - reflexivity.
  - intros H. cbn in H. intuition discriminate.
  - apply select_only_spec. reflexivity.
  - intros H. apply mentions_unsupported_spec in H. vm_compute in H. discriminate.
Defined.

Lemma ws_prefix_split (u s' a b : str) (c : ascii) :
  u ++ s' = a ++ c :: b -> forallb isspace u = true -> isspace c = false ->
  exists a2, a = u ++ a2 /\ s' = a2 ++ c :: b.
Proof.
  revert a. induction u as [|x u IH]; intros a E Hu Hc.
  - now exists a.
  - simpl in Hu. apply andb_true_iff in Hu. destruct Hu as [Hx Hu].
    destruct a as [|y a]; simpl in E; injection E as -> E; [congruence|].
    destruct (IH a E Hu Hc) as [a2 [-> ->]]. now exists a2.
Qed.

Lemma space_is_not_s (y : ascii) :
  isspace y = true -> Re.char_eq Re.IGNORECASE "s" y = false.
Proof. each_char y. Qed.

Lemma newline_ignorecase (x : ascii) :
  Re.char_eq Re.IGNORECASE LF x = Ascii.eqb x LF.
Proof. each_char x. Qed.

Lemma lower_is_s_q_l (kw : str) :
  map lower kw = "sql" ->
  Forall2 (fun c x => Re.char_eq Re.IGNORECASE c x = true) "sql" kw
  /\ Forall2 (fun c x => Re.char_eq Re.IGNORECASE c x = true) "SQL" kw
  /\ exists k t, kw = k :: t /\ isspace k = false.
Proof.
  intros H. repeat split; try now apply literal_ignorecase.
  destruct kw as [|k t]; [discriminate|]. injection H as Hk _.
  exists k, t. split; [reflexivity|]. now apply lower_is_s.
Qed.

Section Labels.

Variables (ws kw gap rest : str).
Hypothesis Hws : forallb isspace ws = true.
Hypothesis Hkw : map lower kw = "sql".
Hypothesis Hgap : forallb isspace gap = true.

(** With a colon after the word and no newline in between, the pattern
    for a line holding only "sql" does not match. *)
Lemma sql_line_skips_label :
  ~ In LF gap ->
  Re.match_ SQL_LINE (ws ++ kw ++ gap ++ ":"%char :: rest) Re.IGNORECASE = None.
Proof.
  intros Hnl. destruct (lower_is_s_q_l kw Hkw) as [Hlit [_ [k [t [Ek Hk]]]]].
  unfold Re.match_. cbn [Re.match_here SQL_LINE].
  apply many_none. intros u s' E Hu.
  assert (E' : u ++ s' = ws ++ k :: (t ++ gap ++ ":"%char :: rest))
    by (rewrite <- E, Ek; reassoc).
  destruct (ws_prefix_split u s' ws _ k E' Hu Hk) as [a2 [Ea ->]].
  destruct a2 as [|y a2].
  - cbn [app]. change (k :: t ++ gap ++ ":"%char :: rest)
      with ((k :: t) ++ gap ++ ":"%char :: rest).
    rewrite <- Ek, (lit_exact _ _ _ _ _ _ Hlit).
    apply many_none. intros u2 s2 E2 Hu2.
    destruct (ws_prefix_split u2 s2 gap rest ":"%char (eq_sym E2) Hu2 eq_refl)
      as [g2 [Eg ->]].
    destruct g2 as [|x g2]; [reflexivity|].
    cbn [app Re.lit]. rewrite newline_ignorecase.
    destruct (Ascii.eqb_spec x LF) as [-> | _]; [|reflexivity].
    exfalso. apply Hnl. rewrite Eg. apply in_or_app. right. now left.
  - cbn [app Re.lit]. rewrite space_is_not_s; [reflexivity|].
    rewrite Ea, forallb_app in Hws. apply andb_true_iff in Hws.
    destruct Hws as [_ H]. simpl in H. now apply andb_true_iff in H.
Qed.

Lemma sql_label_match :
  Re.match_ SQL_LABEL (ws ++ kw ++ gap ++ ":"%char :: rest) Re.IGNORECASE
  = Some (lstrip rest).
Proof.
  destruct (lower_is_s_q_l kw Hkw) as [_ [Hlit [k [t [Ek Hk]]]]].
  unfold Re.match_. cbn [Re.match_here SQL_LABEL].
  apply many_greedy; [exact Hws | rewrite Ek; exact Hk |].
  rewrite (lit_exact _ _ _ _ _ _ Hlit).
  apply many_greedy; [exact Hgap | reflexivity |].
  cbn [Re.lit]. change (Re.char_eq Re.IGNORECASE ":" ":") with true. cbn iota.
  now rewrite many_all.
Qed.

Lemma sql_line_match :
  exists r,
    Re.match_ SQL_LINE (ws ++ kw ++ gap ++ LF :: rest) Re.IGNORECASE = Some r
    /\ lstrip r = lstrip rest.
Proof.
  destruct (lower_is_s_q_l kw Hkw) as [Hlit [_ [k [t [Ek Hk]]]]].
  unfold Re.match_. cbn [Re.match_here SQL_LINE].
  set (k2 := Re.lit Re.IGNORECASE [LF] (fun _ s => Some s)).
  set (prev := Re.last_of (Re.last_of None ws) kw).
  destruct (Re.many isspace k2 prev (gap ++ LF :: rest)) as [r|] eqn:Hm.
  - exists r. split.
    + apply many_greedy; [exact Hws | rewrite Ek; exact Hk |].
      now rewrite (lit_exact _ _ _ _ _ _ Hlit).
    + apply many_sound in Hm. destruct Hm as [u [s' [E [Hu Hk2]]]].
      unfold k2 in Hk2. destruct s' as [|x s']; [discriminate|].
      cbn [Re.lit] in Hk2. rewrite newline_ignorecase in Hk2.
      destruct (Ascii.eqb_spec x LF) as [-> | _]; [|discriminate].
      injection Hk2 as ->.
      apply (f_equal lstrip) in E. unfold lstrip in E.
      rewrite !dropwhile_app_all in E by assumption.
      simpl in E. now symmetry.
  - exfalso. revert Hm. apply many_complete; [exact Hgap|].
    unfold k2. cbn. discriminate.
Qed.

End Labels.

(** X11: a leading "SQL:" label, in any mix of cases, with whitespace
    before it, between the word and the colon (on one line) and after the
    colon, is removed by the two label substitutions together with that
    whitespace: what is left is the text after the colon without its
    leading whitespace. *)
Theorem sql_label_is_stripped (ws kw gap rest : str) :
  forallb isspace ws = true -> map lower kw = "sql" ->
  forallb isspace gap = true -> ~ In LF gap ->
  strip_labels (ws ++ kw ++ gap ++ ":"%char :: rest) = lstrip rest.
Proof.
  intros Hws Hkw Hgap Hnl. unfold strip_labels.
  unfold SQL_LINE at 1. rewrite sub_anchored. fold SQL_LINE.
  rewrite (sql_line_skips_label ws kw gap rest Hws Hkw Hnl).
  unfold SQL_LABEL at 1. rewrite sub_anchored. fold SQL_LABEL.
  now rewrite (sql_label_match ws kw gap rest Hws Hkw Hgap).
Qed.

Lemma sql_label_is_stripped_witness :
  strip_labels " Sql :  SELECT 1" = "SELECT 1".
Proof.
  apply (sql_label_is_stripped " " "Sql" " " "  SELECT 1"); try reflexivity.
  intros [H | []]. discriminate.
Defined.

(** X12: a leading line that holds only the word "sql", in any mix of
    cases and with whitespace around it, is removed by the substitution
    for it: up to leading whitespace, what is left is the text after that
    line's newline. *)
Theorem sql_line_is_stripped (ws kw gap rest : str) :
  forallb isspace ws = true -> map lower kw = "sql" ->
  forallb isspace gap = true ->
  lstrip (Re.sub SQL_LINE "" (ws ++ kw ++ gap ++ LF :: rest) Re.IGNORECASE)
  = lstrip rest.
Proof.
  intros Hws Hkw Hgap.
  unfold SQL_LINE at 1. rewrite sub_anchored. fold SQL_LINE.
  destruct (sql_line_match ws kw gap rest Hws Hkw Hgap) as [r [-> Hr]].
  exact Hr.
Qed.

Lemma sql_line_is_stripped_witness :
  lstrip (Re.sub SQL_LINE "" ("SQL " ++ [LF; LF] ++ "  SELECT 1") Re.IGNORECASE)
  = "SELECT 1".
Proof.
  apply (sql_line_is_stripped "" "SQL" " " (LF :: "  SELECT 1")); reflexivity.
Defined.

(** * The HTTP endpoints *)

Import Main.

Lemma key_eqb_eq (a b : str) : key_eqb a b = true <-> a = b.
Proof.
  unfold key_eqb. destruct (list_eq_dec ascii_dec a b); split; congruence.
Qed.

Lemma key_eqb_refl (a : str) : key_eqb a a = true.
Proof. now apply key_eqb_eq. Qed.

Lemma key_eqb_neq (a b : str) : a <> b -> key_eqb a b = false.
Proof.
  intros H. destruct (key_eqb a b) eqn:E; [|reflexivity].
  now apply key_eqb_eq in E.
Qed.

Section Dicts.

Context {V : Type}.

Lemma dict_get_set_same (k : str) (v : V) (d : dict V) :
  dict_get k (dict_set k v d) = Some v.
Proof.
  induction d as [|[k' v'] d IH]; simpl.
  - now rewrite key_eqb_refl.
  - destruct (key_eqb k k') eqn:E; simpl; rewrite E; [reflexivity | exact IH].
Qed.

Lemma dict_get_set_other (k k' : str) (v : V) (d : dict V) :
  k <> k' -> dict_get k' (dict_set k v d) = dict_get k' d.
Proof.
  intros Hne. induction d as [|[k0 v0] d IH]; simpl.
  - rewrite key_eqb_neq; [reflexivity | congruence].
  - destruct (key_eqb k k0) eqn:E; simpl.
    + apply key_eqb_eq in E. subst k0.
      rewrite key_eqb_neq; [reflexivity | congruence].
    + now rewrite IH.
Qed.

Lemma dict_set_keys (k : str) (v : V) (d : dict V) :
  map fst (dict_set k v d)
  = if existsb (key_eqb k) (map fst d) then map fst d else map fst d ++ [k].
Proof.
  induction d as [|[k0 v0] d IH]; simpl; [reflexivity|].
  destruct (key_eqb k k0) eqn:E; simpl; [reflexivity|].
  rewrite IH. now destruct (existsb (key_eqb k) (map fst d)).
Qed.

Lemma dict_set_keys_in (k : str) (v : V) (d : dict V) (c : str) :
  In c (map fst (dict_set k v d)) <-> In c (map fst d) \/ c = k.
Proof.
  rewrite dict_set_keys.
  destruct (existsb (key_eqb k) (map fst d)) eqn:E.
  - split; [now left|]. intros [H | ->]; [exact H|].
    apply existsb_exists in E. destruct E as [x [Hx E]].
    apply key_eqb_eq in E. now subst.
  - rewrite in_app_iff. simpl. intuition.
Qed.

Lemma dict_set_keys_nodup (k : str) (v : V) (d : dict V) :
  NoDup (map fst d) -> NoDup (map fst (dict_set k v d)).
Proof.
  intros H. rewrite dict_set_keys.
  destruct (existsb (key_eqb k) (map fst d)) eqn:E; [exact H|].
  apply NoDup_app; [exact H | repeat constructor; intros [] |].
  intros x Hx [-> | []].
  assert (Hex : existsb (key_eqb x) (map fst d) = true)
    by (apply existsb_exists; exists x; split; [exact Hx | apply key_eqb_refl]).
  congruence.
Qed.

(** What the dict comprehension builds, from any index and any dict. *)
Lemma record_from_inv (cols : list str) (i : nat) (r : list V) (d0 d : dict V) :
  record_from cols i r d0 = Ok d ->
  (forall c, ~ In c cols -> dict_get c d = dict_get c d0)
  /\ (forall j c, nth_error cols j = Some c ->
        (forall j', j < j' -> nth_error cols j' <> Some c) ->
        dict_get c d = nth_error r (i + j))
  /\ (NoDup (map fst d0) -> NoDup (map fst d))
  /\ (forall c, In c (map fst d) <-> In c (map fst d0) \/ In c cols)
  /\ (cols = [] \/ i + length cols <= length r).
Proof.
  revert i d0. induction cols as [|c0 cols IH]; intros i d0 H; simpl in H.
  - injection H as <-.
    split; [reflexivity|]. split; [intros [|j] c Hj; discriminate|].
    split; [trivial|]. split; [|now left].
    intros c. simpl. tauto.
  - destruct (nth_error r i) as [v|] eqn:Hi; [|discriminate].
    destruct (IH _ _ H) as [Hout [Hin [Hnd [Hkeys Hlen]]]].
    split; [|split; [|split; [|split]]].
    + intros c Hc. rewrite Hout by (intros Hc'; apply Hc; now right).
      apply dict_get_set_other. intros ->. apply Hc. now left.
    + intros [|j] c Hj Hlast.
      * injection Hj as ->. rewrite Nat.add_0_r, Hi.
        rewrite Hout; [apply dict_get_set_same|].
        intros Hc. apply In_nth_error in Hc. destruct Hc as [j Hj].
        apply (Hlast (S j)); [lia | exact Hj].
      * rewrite (Hin j c Hj).
        -- f_equal. lia.
        -- intros j' Hlt. apply (Hlast (S j')). lia.
    + intros Hd0. apply Hnd. now apply dict_set_keys_nodup.
    + intros c. rewrite Hkeys, dict_set_keys_in. simpl. intuition.
    + right. assert (i < length r) by (apply nth_error_Some; congruence).
      simpl. destruct Hlen as [-> | Hlen]; simpl; lia.
Qed.

Lemma record_from_total (cols : list str) (i : nat) (r : list V) (d0 : dict V) :
  (i + length cols <= length r -> exists d, record_from cols i r d0 = Ok d)
  /\ (length r < i + length cols -> cols <> [] ->
      record_from cols i r d0 = Raise IndexError).
Proof.
  revert i d0. induction cols as [|c0 cols IH]; intros i d0; simpl.
  - split; [now exists d0 | congruence].
  - destruct (nth_error r i) as [v|] eqn:Hi.
    + assert (i < length r) by (apply nth_error_Some; congruence).
      destruct (IH (S i) (dict_set c0 v d0)) as [Hok Herr].
      split; [intros Hle; apply Hok; lia|].
      intros Hlt _. apply Herr; [lia|]. intros ->. simpl in Hlt. lia.
    + apply nth_error_None in Hi. split; [lia | reflexivity].
Qed.

End Dicts.

(** X13: the record built for one row has one entry per distinct column
    name, and each name maps to the cell under its last occurrence among
    the columns (so with distinct names, column [j] maps to cell [j]); a
    record is built only for rows with at least as many cells as there are
    columns. *)
Theorem record_maps_columns_to_cells (V : Type) (cols : list str)
  (r : list V) (d : dict V) :
  record_from cols 0 r [] = Ok d ->
  NoDup (map fst d)
  /\ (forall c, In c (map fst d) <-> In c cols)
  /\ (forall j c, nth_error cols j = Some c ->
        (forall j', j < j' -> nth_error cols j' <> Some c) ->
        dict_get c d = nth_error r j)
  /\ length cols <= length r.
Proof.
  intros H. destruct (record_from_inv cols 0 r [] d H)
    as [_ [Hin [Hnd [Hkeys Hlen]]]].
  split; [apply Hnd; constructor|].
  split; [intros c; rewrite Hkeys; simpl; tauto|].
  split; [exact Hin|].
  destruct Hlen as [-> | Hlen]; simpl in *; lia.
Qed.

Lemma record_maps_columns_to_cells_witness :
  dict_get "tons" [("period", 7%Z); ("tons", 9%Z)] = Some 9%Z.
Proof.
  change (Some 9%Z) with (nth_error [7%Z; 8%Z; 9%Z] 2).
  apply (proj1 (proj2 (proj2 (record_maps_columns_to_cells Z
           ["period"; "tons"; "tons"] [7%Z; 8%Z; 9%Z]
           [("period", 7%Z); ("tons", 9%Z)] eq_refl))) 2 "tons" eq_refl).
  intros [|[|[|j']]] Hlt; try lia. destruct j'; discriminate.
Defined.

Lemma records_of_total {V : Type} (cols : list str) (rows : list (list V)) :
  Forall (fun r => length cols <= length r) rows ->
  exists recs,
    records_of cols rows = Ok recs
    /\ Forall2 (fun r d => record_from cols 0 r [] = Ok d) rows recs.
Proof.
  induction 1 as [|r rows Hr _ [recs [E H2]]]; simpl.
  - exists []. split; [reflexivity | constructor].
  - destruct (proj1 (record_from_total cols 0 r []) Hr) as [d Hd].
    rewrite Hd, E. exists (d :: recs). split; [reflexivity | now constructor].
Qed.

(** X14: the records endpoint turns a table whose rows all have a cell
    for every column into one record per row, in row order; a row with
    fewer cells than there are columns makes the whole conversion raise
    [IndexError]. *)
Theorem records_follow_rows (V : Type) (cols : list str) (rows : list (list V)) :
  (Forall (fun r => length cols <= length r) rows ->
   exists recs,
     records_of cols rows = Ok recs
     /\ length recs = length rows
     /\ Forall2 (fun r d => record_from cols 0 r [] = Ok d) rows recs)
  /\ (Exists (fun r => length r < length cols) rows ->
      records_of cols rows = Raise IndexError).
Proof.
  split.
  - intros H. destruct (records_of_total cols rows H) as [recs [E H2]].
    exists recs. repeat split; trivial. symmetry. now apply Forall2_length in H2.
  - induction 1 as [r rows Hr | r rows _ IH]; simpl.
    + rewrite (proj2 (record_from_total cols 0 r []) Hr); [reflexivity|].
      intros ->. simpl in Hr. lia.
    + destruct (record_from cols 0 r []) as [d|e] eqn:Hd.
      * now rewrite IH.
      * destruct (Nat.le_gt_cases (length cols) (length r)) as [Hle | Hgt].
        -- destruct (proj1 (record_from_total cols 0 r []) Hle) as [d Hd'].
           congruence.
        -- rewrite (proj2 (record_from_total cols 0 r []) Hgt) in Hd;
             [congruence|]. intros ->. simpl in Hgt. lia.
Qed.

Lemma records_follow_rows_witness :
  records_of ["a"; "b"] [[1%Z; 2%Z]; [3%Z]] = Raise IndexError
  /\ exists recs, records_of ["a"; "b"] [[1%Z; 2%Z]; [3%Z; 4%Z]] = Ok recs
                  /\ length recs = 2.
Proof.
  split.
  - apply (proj2 (records_follow_rows Z ["a"; "b"] [[1%Z; 2%Z]; [3%Z]])).
    right. left. simpl. lia.
  - destruct (proj1 (records_follow_rows Z ["a"; "b"] [[1%Z; 2%Z]; [3%Z; 4%Z]]))
      as [recs [E [Hlen _]]].
    + repeat constructor.
    + exists recs. split; [exact E | exact Hlen].
Defined.

Lemma process_question_accepted_trace (B : Backend) (question : str)
  (return_table : bool) (limit : option Z) (st : state B) (prompt raw : str)
  (w0 w1 : World B) :
  prompted B question st prompt w0 ->
  llm_predict B prompt w0 = (Ok raw, w1) ->
  starts_with_select (_clean_sql raw) ->
  exists evs,
    snd (snd (process_question B question return_table limit st))
    = (snd st ++ [GetTableInfo; LlmPredict prompt])
      ++ DbExecute (_apply_limit (_clean_sql raw) limit) :: evs.
Proof.
  intros Hp Hllm Hsel.
  destruct (exec_driver_sql B (_apply_limit (_clean_sql raw) limit) w1)
    as [[r|e] w2] eqn:Hexec.
  - rewrite (process_question_executed B question limit st prompt raw w0 w1 w2 r
               Hp Hllm Hsel Hexec return_table).
    cbv zeta. destruct return_table.
    + destruct (summarize_table_run B question (fst (table_of r)) (snd (table_of r))
                  (w2, (snd st ++ [GetTableInfo; LlmPredict prompt])
                       ++ [DbExecute (_apply_limit (_clean_sql raw) limit)]))
        as [answer [w3 [evs [E _]]]].
      rewrite E. cbn [snd]. exists evs. now rewrite <- !app_assoc.
    + exists []. reflexivity.
  - rewrite (process_question_execution_raises B question return_table limit st
               prompt raw w0 w1 w2 e Hp Hllm Hsel Hexec).
    exists []. reflexivity.
Qed.

Lemma ask_question_records_state (B : Backend) (req : QueryRequest) (st : state B) :
  snd (ask_question_records B req st)
  = snd (process_question B (question req) true None st).
Proof.
  unfold ask_question_records.
  destruct (process_question B (question req) true None st) as [resp st'].
  cbv zeta.
  destruct (if some_nonempty (Model.columns resp) && some_nonempty (Model.rows resp)
            then records_of (get_list (Model.columns resp)) (get_list (Model.rows resp))
            else Ok []); reflexivity.
Qed.

(** X15: the records endpoint on a request that succeeds with a table of
    [n] rows, each as wide as the column list: it answers with the SQL
    text, a null error, [count = n] and one record per row in row order,
    whatever [return_table] the request carried. *)
Theorem ask_records_returns_a_record_per_row (B : Backend) (req : QueryRequest)
  (st : state B) (prompt raw : str) (w0 w1 w2 : World B) (cols : list str)
  (rows : list (list (value B))) :
  prompted B (question req) st prompt w0 ->
  llm_predict B prompt w0 = (Ok raw, w1) ->
  starts_with_select (_clean_sql raw) ->
  exec_driver_sql B (_clean_sql raw) w1 = (Ok (Some (cols, rows)), w2) ->
  cols <> [] -> rows <> [] ->
  Forall (fun r => length r = length cols) rows ->
  exists answer st' recs,
    ask_question_records B req st
    = (Ok {| sql := Some (_clean_sql raw);
             answer := answer;
             error := None;
             count := length rows;
             records := recs |}, st')
    /\ Forall2 (fun r d => record_from cols 0 r [] = Ok d) rows recs.
Proof.
  intros Hp Hllm Hsel Hexec Hc Hr Hwide.
  unfold ask_question_records.
  rewrite (process_question_executed B (question req) None st prompt raw w0 w1 w2
             (Some (cols, rows)) Hp Hllm Hsel Hexec true).
  cbv zeta. cbn [table_of fst snd].
  destruct (summarize_table_run B (question req) cols rows
              (w2, (snd st ++ [GetTableInfo; LlmPredict prompt])
                   ++ [DbExecute (_apply_limit (_clean_sql raw) None)]))
    as [answer [w3 [evs [E _]]]].
  rewrite E. cbn [Model.columns Model.rows Model.sql Model.answer Model.error].
  destruct cols as [|c cols]; [congruence|].
  destruct rows as [|r rows]; [congruence|].
  cbn [some_nonempty andb get_list].
  destruct (records_of_total (c :: cols) (r :: rows)) as [recs [Erecs H2]].
  { eapply Forall_impl; [|exact Hwide]. intros x Hx. simpl in *. lia. }
  pose proof (Forall2_length H2) as Hlen.
  rewrite Erecs, <- Hlen. eexists _, _, _. split; [reflexivity | exact H2].
Qed.

Lemma ask_records_returns_a_record_per_row_witness :
  let B := scripted (fun prompt => if startswith Ascii.eqb "The user asked" prompt
                                   then Ok "Two periods."
                                   else Ok "select period, tons from volumes")
                    (fun _ => Ok (Some (["period"; "tons"], [[1%Z; 10%Z]; [2%Z; 20%Z]]))) in
  exists answer st' recs,
    ask_question_records B {| question := "tons?"; return_table := false |} (tt, [])
    = (Ok {| sql := Some "select period, tons from volumes;";
             answer := answer; error := None; count := 2; records := recs |}, st').
Proof.
  intros B.
  destruct (ask_records_returns_a_record_per_row B
              {| question := "tons?"; return_table := false |} (tt, [])
              (scripted_prompt "tons?") "select period, tons from volumes" tt tt tt
              ["period"; "tons"] [[1%Z; 10%Z]; [2%Z; 20%Z]])
    as [answer [st' [recs [E _]]]].
  - exists scripted_schema. split; reflexivity.
  - reflexivity.
  - apply select_only_spec. reflexivity.
  - reflexivity.
  - discriminate.
  - discriminate.
  - repeat constructor.
  - exists answer, st', recs. exact E.
Defined.

(** X16: when the pipeline fails, the records endpoint does not raise: it
    answers with null SQL, the generic message, the error text,
    [count = 0] and no records. *)
Theorem ask_records_reports_failure (B : Backend) (req : QueryRequest)
  (st : state B) :
  Model.error (fst (process_question B (question req) true None st)) <> None ->
  ask_question_records B req st
  = (Ok {| sql := None;
           answer := "An error occurred while processing your question.";
           error := Model.error (fst (process_question B (question req) true None st));
           count := 0;
           records := [] |},
     snd (process_question B (question req) true None st)).
Proof.
  intros Herr. unfold ask_question_records.
  destruct (process_question_run B (question req) true None st)
    as [[detail [w E]] | [[prompt [detail [w E]]]
        | [[prompt [sql [detail [w [_ E]]]]]
        | [prompt [sql [answer [columns [rows [w [evs [_ [E _]]]]]]]]]]]];
    rewrite E in *; cbn in *; try reflexivity.
  congruence.
Qed.

Lemma ask_records_reports_failure_witness :
  let B := scripted (fun _ => Ok "DELETE FROM volumes") (fun _ => Ok None) in
  fst (ask_question_records B {| question := "wipe"; return_table := true |} (tt, []))
  = Ok {| sql := None;
          answer := "An error occurred while processing your question.";
          error := Some "Only SELECT statements are allowed.";
          count := 0;
          records := ([] : list (dict Z)) |}.
Proof.
  intros B.
  rewrite (ask_records_reports_failure B
             {| question := "wipe"; return_table := true |} (tt, [])).
  - reflexivity.
  - discriminate.
Defined.

(** X17: neither endpoint passes a limit, so the limit enforcer is never
    applied in the service: for an accepted completion, the statement sent
    to the database is the sanitized completion itself. *)
Theorem endpoints_execute_the_sanitized_statement (B : Backend)
  (req : QueryRequest) (st : state B) (prompt raw : str) (w0 w1 : World B) :
  prompted B (question req) st prompt w0 ->
  llm_predict B prompt w0 = (Ok raw, w1) ->
  starts_with_select (_clean_sql raw) ->
  (exists evs,
      snd (snd (ask_question B req st))
      = (snd st ++ [GetTableInfo; LlmPredict prompt])
        ++ DbExecute (_clean_sql raw) :: evs)
  /\ (exists evs,
         snd (snd (ask_question_records B req st))
         = (snd st ++ [GetTableInfo; LlmPredict prompt])
           ++ DbExecute (_clean_sql raw) :: evs).
Proof.
  intros Hp Hllm Hsel. split.
  - apply (process_question_accepted_trace B (question req) (return_table req)
             None st prompt raw w0 w1 Hp Hllm Hsel).
  - rewrite ask_question_records_state.
    apply (process_question_accepted_trace B (question req) true None st prompt
             raw w0 w1 Hp Hllm Hsel).
Qed.

Lemma endpoints_execute_the_sanitized_statement_witness :
  let B := scripted (fun _ => Ok "select * from volumes") (fun _ => Ok None) in
  exists evs,
    snd (snd (ask_question B {| question := "all"; return_table := false |} (tt, [])))
    = ([] ++ [GetTableInfo; LlmPredict (scripted_prompt "all")])
      ++ DbExecute "select * from volumes;" :: evs.
Proof.
  intros B.
  apply (proj1 (endpoints_execute_the_sanitized_statement B
                  {| question := "all"; return_table := false |} (tt, [])
                  (scripted_prompt "all") "select * from volumes" tt tt
                  (ex_intro _ scripted_schema (conj eq_refl eq_refl)) eq_refl
                  (proj1 (select_only_spec "select * from volumes;") eq_refl))).
Defined.

(** * The dimension tables *)

Import Database.

Section Tables.

Context {R : Type} (id : R -> Z).

Lemma first_by_id_none (l : list R) : first_by_id id l = None -> l = [].
Proof.
  destruct l as [|r l]; [reflexivity|]. simpl.
  destruct (first_by_id id l) as [r'|]; [|discriminate].
  destruct (id r <=? id r')%Z; discriminate.
Qed.

Lemma first_by_id_in (l : list R) (r : R) : first_by_id id l = Some r -> In r l.
Proof.
  revert r. induction l as [|x l IH]; intros r H; simpl in H; [discriminate|].
  destruct (first_by_id id l) as [r'|].
  - destruct (id x <=? id r')%Z; injection H as <-; [now left|].
    right. now apply IH.
  - injection H as <-. now left.
Qed.

Lemma max_id_le (l : list R) (s : Z) (r : R) :
  In r l -> (id r <= fold_right Z.max s (map id l))%Z.
Proof.
  induction l as [|x l IH]; intros H; cbn [fold_right map In] in *;
    [contradiction|].
  destruct H as [-> | H]; [lia|]. specialize (IH H). lia.
Qed.

Lemma max_id_bound (t : table R) (r : R) :
  In r (rows t) -> (id r < next_id id t)%Z.
Proof.
  intros H. unfold next_id. pose proof (max_id_le (rows t) (seq t) r H). lia.
Qed.

(** A row inserted because nothing matched is what the next lookup finds. *)
Lemma lookup_after_insert (matches : R -> bool) (make : Z -> R) (t : table R) :
  filter matches (rows t) = [] ->
  matches (make (next_id id t)) = true ->
  first_by_id id (filter matches (rows (snd (insert_row id make t))))
  = Some (make (next_id id t)).
Proof.
  intros Hnone Hnew. unfold insert_row. cbn [snd rows].
  rewrite filter_app, Hnone. simpl. now rewrite Hnew.
Qed.

End Tables.

Lemma label_is_spec (l : str) (r : period) :
  label_is l r = true <-> label r = Some l.
Proof.
  unfold label_is. destruct (label r) as [l'|].
  - rewrite key_eqb_eq. split; congruence.
  - split; discriminate.
Qed.

(** The two ways [get_or_create_period] can go. *)
Lemma get_or_create_period_cases (conn : connection) (l : str) :
  (exists r,
      In r (rows (periods conn)) /\ label r = Some l
      /\ get_or_create_period conn l = (period_id r, conn))
  \/ (filter (label_is l) (rows (periods conn)) = []
      /\ get_or_create_period conn l
         = (next_id period_id (periods conn),
            {| periods :=
                 {| rows := rows (periods conn)
                            ++ [{| period_id := next_id period_id (periods conn);
                                   label := Some l;
                                   year_start := None; year_end := None |}];
                    seq := next_id period_id (periods conn) |};
               ports := ports conn |})).
Proof.
  unfold get_or_create_period.
  destruct (first_by_id period_id (filter (label_is l) (rows (periods conn))))
    as [r|] eqn:E.
  - left. exists r. apply first_by_id_in in E. apply filter_In in E.
    destruct E as [Hin Hl]. apply label_is_spec in Hl. auto.
  - right. apply first_by_id_none in E. split; [exact E | reflexivity].
Qed.

Lemma get_or_create_period_stable (conn : connection) (l : str) :
  let out := get_or_create_period conn l in
  get_or_create_period (snd out) l = out
  /\ (exists r, In r (rows (periods (snd out)))
                /\ period_id r = fst out /\ label r = Some l)
  /\ (exists added, rows (periods (snd out)) = rows (periods conn) ++ added
                    /\ length added <= 1)
  /\ ports (snd out) = ports conn.
Proof.
  destruct (get_or_create_period_cases conn l)
    as [[r [Hin [Hl E]]] | [Hnone E]]; rewrite E; cbn [fst snd].
  - split; [exact E|]. split; [now exists r|].
    split; [exists []; rewrite app_nil_r; simpl; auto | reflexivity].
  - split; [|split; [|split]].
    + unfold get_or_create_period. cbn [periods ports rows].
      rewrite filter_app, Hnone. cbn. now rewrite key_eqb_refl.
    + eexists. split; [apply in_or_app; right; now left | split; reflexivity].
    + eexists. split; [reflexivity | simpl; lia].
    + reflexivity.
Qed.

(** X18: [get_or_create_period] is stable: a second call with the same
    label returns the same id and changes nothing.  After a call the
    table holds a row with the returned id and the given label, every
    earlier row is still there, at most one row was added, and the ports
    table is untouched. *)
Theorem get_or_create_period_is_stable (conn : connection) (l : str) :
  let out := get_or_create_period conn l in
  get_or_create_period (snd out) l = out
  /\ (exists r, In r (rows (periods (snd out)))
                /\ period_id r = fst out /\ label r = Some l)
  /\ (exists added, rows (periods (snd out)) = rows (periods conn) ++ added
                    /\ length added <= 1)
  /\ ports (snd out) = ports conn.
Proof. apply get_or_create_period_stable. Qed.

Lemma nodup_map_inj {A C : Type} (f : A -> C) (l : list A) (x y : A) :
  NoDup (map f l) -> In x l -> In y l -> f x = f y -> x = y.
Proof.
  induction l as [|a l IH]; simpl; intros Hnd Hx Hy E; [contradiction|].
  inversion Hnd as [|? ? Hnot Hnd']; subst.
  destruct Hx as [-> | Hx], Hy as [-> | Hy]; trivial.
  - exfalso. apply Hnot. rewrite E. now apply in_map.
  - exfalso. apply Hnot. rewrite <- E. now apply in_map.
  - now apply IH.
Qed.

Lemma get_or_create_period_keeps_keys (conn : connection) (l : str) :
  periods_keyed conn -> periods_keyed (snd (get_or_create_period conn l)).
Proof.
  intros [Hids Hlabels].
  destruct (get_or_create_period_cases conn l)
    as [[r [Hin [Hl E]]] | [Hnone E]]; rewrite E; cbn [snd]; [now split|].
  assert (Hfresh : forall r, In r (rows (periods conn)) -> label r <> Some l).
  { intros r Hr Hl. apply label_is_spec in Hl.
    assert (H : In r (filter (label_is l) (rows (periods conn))))
      by (apply filter_In; auto).
    now rewrite Hnone in H. }
  split; cbn [periods rows].
  - rewrite map_app. apply NoDup_app; [exact Hids | repeat constructor; intros [] |].
    intros x Hx [E' | []]. apply in_map_iff in Hx. destruct Hx as [r [Er Hr]].
    pose proof (max_id_bound period_id (periods conn) r Hr) as Hlt.
    simpl in E'. lia.
  - intros r1 r2 x H1 H2 E1 E2.
    apply in_app_or in H1. apply in_app_or in H2.
    destruct H1 as [H1 | [<- | []]], H2 as [H2 | [<- | []]]; trivial.
    + now apply Hlabels with x.
    + simpl in E2. injection E2 as <-. now apply Hfresh in H1.
    + simpl in E1. injection E1 as <-. now apply Hfresh in H2.
Qed.

(** X19: [get_or_create_period] keeps the constraints of the table: if
    ids are unique and no label occurs twice, the same holds after the
    call; it never inserts a label that is present. *)
Theorem get_or_create_period_keeps_constraints (conn : connection) (l : str) :
  periods_keyed conn -> periods_keyed (snd (get_or_create_period conn l)).
Proof. apply get_or_create_period_keeps_keys. Qed.

Lemma empty_connection_keyed : periods_keyed empty_connection.
Proof. split; [constructor | intros r1 r2 l []]. Qed.

Lemma two_periods_keyed : periods_keyed two_periods.
Proof.
  split.
  - repeat constructor; simpl; intuition discriminate.
  - intros r1 r2 l H1 H2 E1 E2. simpl in H1, H2.
    destruct H1 as [<- | [<- | []]], H2 as [<- | [<- | []]];
      simpl in E1, E2; congruence.
Qed.

Lemma get_or_create_period_keeps_constraints_witness :
  periods_keyed (snd (get_or_create_period two_periods "2024-25"))
  /\ map (fun r => (period_id r, label r))
         (rows (periods (snd (get_or_create_period two_periods "2024-25"))))
     = [(1%Z, Some "2022-23"); (4%Z, Some "2023-24"); (7%Z, Some "2024-25")]
  /\ periods_keyed (snd (get_or_create_period two_periods "2023-24"))
  /\ snd (get_or_create_period two_periods "2023-24") = two_periods.
Proof.
  split; [|split; [|split]].
  - apply (get_or_create_period_keeps_constraints two_periods "2024-25").
    exact two_periods_keyed.
  - reflexivity.
  - apply (get_or_create_period_keeps_constraints two_periods "2023-24").
    exact two_periods_keyed.
  - reflexivity.
Defined.

(** X20: on a table whose constraints hold, period ids identify labels:
    two successive calls return the same id exactly when they were given
    the same label. *)
Theorem period_ids_identify_labels (conn : connection) (l1 l2 : str) :
  periods_keyed conn ->
  fst (get_or_create_period conn l1)
  = fst (get_or_create_period (snd (get_or_create_period conn l1)) l2)
  <-> l1 = l2.
Proof.
  intros Hkeyed.
  destruct (get_or_create_period_stable conn l1)
    as [Hagain [[r1 [Hin1 [Hid1 Hl1]]] _]].
  set (out1 := get_or_create_period conn l1) in *.
  pose proof (get_or_create_period_keeps_keys conn l1 Hkeyed) as Hk1.
  fold out1 in Hk1.
  destruct (get_or_create_period_stable (snd out1) l2)
    as [_ [[r2 [Hin2 [Hid2 Hl2]]] [[added [Hadd _]] _]]].
  pose proof (get_or_create_period_keeps_keys (snd out1) l2 Hk1) as [Hids _].
  set (out2 := get_or_create_period (snd out1) l2) in *.
  split.
  - intros E.
    assert (Hin1' : In r1 (rows (periods (snd out2))))
      by (rewrite Hadd; apply in_or_app; now left).
    assert (Er : r1 = r2)
      by (apply (nodup_map_inj period_id _ r1 r2 Hids Hin1' Hin2); congruence).
    subst r2. congruence.
  - intros <-. unfold out2. now rewrite Hagain.
Qed.

Lemma period_ids_identify_labels_witness :
  fst (get_or_create_period empty_connection "2023-24")
  <> fst (get_or_create_period
            (snd (get_or_create_period empty_connection "2023-24")) "2024-25").
Proof.
  intros E.
  apply (period_ids_identify_labels empty_connection "2023-24" "2024-25"
           empty_connection_keyed) in E.
  discriminate.
Defined.

(** The two ways [get_or_create_port] can go. *)
Lemma get_or_create_port_cases (conn : connection) (n : str) (s : option str) :
  (exists r,
      In r (rows (ports conn)) /\ name r = n
      /\ get_or_create_port conn n s = (port_id r, conn))
  \/ (filter (name_is n) (rows (ports conn)) = []
      /\ get_or_create_port conn n s
         = (next_id port_id (ports conn),
            {| periods := periods conn;
               ports :=
                 {| rows := rows (ports conn)
                            ++ [{| port_id := next_id port_id (ports conn);
                                   name := n; state := s |}];
                    seq := next_id port_id (ports conn) |} |})).
Proof.
  unfold get_or_create_port.
  destruct (first_by_id port_id (filter (name_is n) (rows (ports conn))))
    as [r|] eqn:E.
  - left. exists r. apply first_by_id_in in E. apply filter_In in E.
    destruct E as [Hin Hn]. apply key_eqb_eq in Hn. auto.
  - right. apply first_by_id_none in E. split; [exact E | reflexivity].
Qed.

(** X21: [get_or_create_port] uses its [state] argument only when it
    creates the port.  Where a port of that name exists, the call returns
    the id of such a port and leaves the connection as it is; so after any
    call, a further call for the same name with any other state returns
    the same id and changes nothing, and the stored state is never
    updated.  The periods table is untouched. *)
Theorem port_state_is_never_updated (conn : connection) (n : str)
  (s1 s2 : option str) :
  let out := get_or_create_port conn n s1 in
  get_or_create_port (snd out) n s2 = out
  /\ (forall r, In r (rows (ports conn)) -> name r = n ->
      snd out = conn
      /\ exists r', In r' (rows (ports conn)) /\ name r' = n
                    /\ fst out = port_id r')
  /\ ((forall r, In r (rows (ports conn)) -> name r <> n) ->
      exists r', rows (ports (snd out)) = rows (ports conn) ++ [r']
                 /\ port_id r' = fst out /\ name r' = n /\ state r' = s1)
  /\ periods (snd out) = periods conn.
Proof.
  destruct (get_or_create_port_cases conn n s1)
    as [[r [Hin [Hn E]]] | [Hnone E]]; rewrite E; cbn [fst snd].
  - split; [|split; [|split]].
    + unfold get_or_create_port in E |- *.
      destruct (first_by_id port_id (filter (name_is n) (rows (ports conn))))
        eqn:F; [exact E|].
      apply first_by_id_none in F.
      assert (H : In r (filter (name_is n) (rows (ports conn))))
        by (apply filter_In; split; [exact Hin | now apply key_eqb_eq]).
      now rewrite F in H.
    + intros _ _ _. split; [reflexivity | now exists r].
    + intros Hnew. now contradiction (Hnew r Hin).
    + reflexivity.
  - split; [|split; [|split]].
    + unfold get_or_create_port. cbn [periods ports rows].
      rewrite filter_app, Hnone. cbn [filter app]. unfold name_is at 1.
      cbn [name]. now rewrite key_eqb_refl.
    + intros r Hin Hn.
      assert (H : In r (filter (name_is n) (rows (ports conn))))
        by (apply filter_In; split; [exact Hin | now apply key_eqb_eq]).
      now rewrite Hnone in H.
    + intros _. eexists. cbn [ports rows].
      split; [reflexivity|]. repeat split.
    + reflexivity.
Qed.

Lemma port_state_is_never_updated_witness :
  let conn := snd (get_or_create_port empty_connection "Mundra" None) in
  snd (get_or_create_port conn "Mundra" (Some "Gujarat")) = conn
  /\ map state (rows (ports conn)) = [None].
Proof.
  intros conn. split; [|reflexivity].
  apply (proj1 (proj2 (port_state_is_never_updated conn "Mundra"
                         (Some "Gujarat") None))
           {| port_id := 1; name := "Mundra"; state := None |}).
  - now left.
  - reflexivity.
Defined.
